(** * LazyExecute: deferred parsing behind a transparent wrapper

    A verification development for [src/psd/lazy_execute.js].

    The class [LazyExecute] wraps a target object and a file handle.  It
    remembers where the file stood when it was built, runs a "skip" method
    at once ([now]), remembers a "parse" method for later ([later]), keeps a
    list of member names that never force parsing ([ignore]) and finally
    hands out a [Proxy] ([get]) whose traps call [load] on the first access
    that is not exempt.

    The embedding is shallow: every method of the class is a Rocq function
    in a small state-and-exception monad.  The code of the collaborators
    (the methods of the wrapped object, the client that uses the wrapper)
    is arbitrary JavaScript; it is represented by finite programs over the
    operations such code can perform on the world of the class: moving the
    file cursor, reading and writing members of objects, reading members of
    the wrapper, calling functions, throwing and catching.  Calls are the
    only source of unbounded recursion and are cut by a fuel counter. *)

From Stdlib Require Import ZArith String List Bool Lia.
From stdpp Require Import base option gmap strings list fin_maps.

Local Open Scope Z_scope.
Local Open Scope string_scope.
Local Open Scope list_scope.

(** ** Values, objects and receivers *)

(** Locations name the objects and the file handles of the heap. *)
Definition loc := nat.

(** A function value names its code in the code table. *)
Definition fn_id := string.

(** JavaScript values that the class can meet as members, arguments and
    results.  Member names are strings. *)
Inductive value : Type :=
| VUndef
| VNull
| VBool (b : bool)
| VNum (n : Z)
| VStr (s : string)
| VFun (f : fn_id).

(** Exceptions: the two engine errors the class can provoke, and whatever a
    collaborator throws. *)
Inductive error : Type :=
| TypeError
| ReferenceError
| UserError (v : value).

(** An object is its members, and its code when it is itself a function
    (only then can a [Proxy] over it be called). *)
Record object : Type := mkObject {
  fields : gmap string value;
  callable : option fn_id
}.

(** What [this] is bound to while a function body runs. *)
Inductive receiver : Type :=
| ThisObj (l : loc)
| ThisWrapper
| ThisUndef.

(** ** The instance and the world around it *)

(** The fields assigned by the constructor (lines 27-35). *)
Record LazyExecute : Type := mkLazyExecute {
  obj : loc;
  file : loc;
  startPos : Z;
  loaded : bool;
  loadMethod : option string;
  loadArgs : list value;
  passthru : list string
}.

(** Instrumentation, not part of the program: one record per invocation of
    the deferred method made by [load], with what the method could observe
    at that instant. *)
Record call : Type := mkCall {
  call_key : string;
  call_args : list value;
  call_pos : option Z;
  call_loaded : bool
}.

Record state : Type := mkState {
  self : LazyExecute;
  objs : gmap loc object;
  files : gmap loc Z;
  calls : list call
}.

Definition with_self (b : LazyExecute) (s : state) : state :=
  mkState b (objs s) (files s) (calls s).

Definition with_objs (m : gmap loc object) (s : state) : state :=
  mkState (self s) m (files s) (calls s).

Definition with_files (m : gmap loc Z) (s : state) : state :=
  mkState (self s) (objs s) m (calls s).

Definition with_calls (l : list call) (s : state) : state :=
  mkState (self s) (objs s) (files s) l.

Definition set_loaded (v : bool) (b : LazyExecute) : LazyExecute :=
  mkLazyExecute (obj b) (file b) (startPos b) v
                (loadMethod b) (loadArgs b) (passthru b).

Definition set_later (m : string) (args : list value) (b : LazyExecute)
  : LazyExecute :=
  mkLazyExecute (obj b) (file b) (startPos b) (loaded b)
                (Some m) args (passthru b).

Definition set_passthru (l : list string) (b : LazyExecute) : LazyExecute :=
  mkLazyExecute (obj b) (file b) (startPos b) (loaded b)
                (loadMethod b) (loadArgs b) l.

(** ** The monad *)

(** A computation ends with a result, with an exception, or is cut because
    the call depth exceeded the fuel.  The state at the end is kept in both
    of the first two cases: what an exception leaves behind matters. *)
Inductive outcome (A : Type) : Type :=
| Ok (a : A) (s : state)
| Thrown (e : error) (s : state)
| OutOfFuel.

Arguments Ok {A} a s.
Arguments Thrown {A} e s.
Arguments OutOfFuel {A}.

Definition M (A : Type) : Type := state -> outcome A.

Definition ret {A} (a : A) : M A := fun s => Ok a s.

Definition throw {A} (e : error) : M A := fun s => Thrown e s.

Definition bind {A B} (m : M A) (k : A -> M B) : M B :=
  fun s =>
    match m s with
    | Ok a s' => k a s'
    | Thrown e s' => Thrown e s'
    | OutOfFuel => OutOfFuel
    end.

Definition try_catch {A} (m : M A) (h : error -> M A) : M A :=
  fun s =>
    match m s with
    | Ok a s' => Ok a s'
    | Thrown e s' => h e s'
    | OutOfFuel => OutOfFuel
    end.

Definition this : M LazyExecute := fun s => Ok (self s) s.

Definition modify_this (f : LazyExecute -> LazyExecute) : M unit :=
  fun s => Ok tt (with_self (f (self s)) s).

Declare Scope lazy_scope.
Delimit Scope lazy_scope with lazy.
Notation "'let*' x ':=' m 'in' k" := (bind m (fun x => k))
  (at level 10, x name, m at level 99, k at level 200) : lazy_scope.
Notation "m ;;; k" := (bind m (fun _ => k))
  (at level 100, k at level 200, right associativity) : lazy_scope.
Local Open Scope lazy_scope.

(** ** The collaborators *)

(** Modelled from the spec: the byte stream is not in the repository here;
    its contract is [currentPosition() -> integer offset] ([tell]) and an
    absolute [seek(offset)] that has no other effect.  A handle that does
    not exist is [undefined], and calling a method on it is a TypeError. *)
Definition file_tell (f : loc) : M Z :=
  fun s =>
    match files s !! f with
    | Some p => Ok p s
    | None => Thrown TypeError s
    end.

Definition file_seek (f : loc) (p : Z) : M unit :=
  fun s =>
    match files s !! f with
    | Some _ => Ok tt (with_files (<[f := p]> (files s)) s)
    | None => Thrown TypeError s
    end.

(** [o[name]] on an object: the member, or [undefined]. *)
Definition obj_get (o : object) (name : string) : value :=
  default VUndef (fields o !! name).

Definition obj_set (o : object) (name : string) (v : value) : object :=
  mkObject (<[name := v]> (fields o)) (callable o).

(** [l[name]] through a reference. *)
Definition member (l : loc) (name : string) : M value :=
  fun s =>
    match objs s !! l with
    | Some o => Ok (obj_get o name) s
    | None => Thrown TypeError s
    end.

Definition set_member (l : loc) (name : string) (v : value) : M unit :=
  fun s =>
    match objs s !! l with
    | Some o => Ok tt (with_objs (<[l := obj_set o name v]> (objs s)) s)
    | None => Thrown TypeError s
    end.

(** [Array.prototype.includes] on a list of names: strict equality with
    some element. *)
Fixpoint includes (l : list string) (x : string) : bool :=
  match l with
  | [] => false
  | y :: l' => if String.eqb y x then true else includes l' x
  end.

(** [this.loadMethod] used as a property key: [null] becomes ["null"]. *)
Definition key_of (m : option string) : string :=
  match m with
  | Some k => k
  | None => "null"
  end.

(** Programs of the collaborators.  Continuations are Rocq functions, so a
    program can branch on what it reads.  There is no operation on the
    [LazyExecute] instance: once [get()] has returned, the instance is
    reachable from the closures of the proxy's traps only. *)
Inductive prog : Type :=
| Return (v : value)
| Throw (e : error)
| Tell (f : loc) (k : Z -> prog)
| Seek (f : loc) (p : Z) (k : prog)
| GetMember (r : receiver) (name : string) (k : value -> prog)
| SetMember (r : receiver) (name : string) (v : value) (k : prog)
| Invoke (fv : value) (r : receiver) (args : list value) (k : value -> prog)
| CallWrapper (r : receiver) (args : list value) (k : value -> prog)
| TryCatch (body : prog) (handler : error -> prog) (k : value -> prog).

(** [wrapper.name(args)]: a member read followed by a call on what was
    read, with the wrapper as [this]. *)
Definition CallMember (r : receiver) (name : string) (args : list value)
           (k : value -> prog) : prog :=
  GetMember r name (fun fv => Invoke fv r args k).

(** The code table: the body of each function, given [this] and the
    arguments. *)
Definition code_table : Type := fn_id -> receiver -> list value -> prog.

(** ** The class *)

(** A proxy, as far as the class defines one: a [get] handler for member
    reads and an [apply] handler for calls of the proxy itself. *)
Record Proxy : Type := mkProxy {
  trap_get : string -> M value;
  trap_apply : receiver -> list value -> M value
}.

(** [new LazyExecute(obj, file)] (lines 27-35).  [file.tell()] on a handle
    that does not exist throws and no instance is made. *)
Definition constructor (o f : loc) (os : gmap loc object) (fs : gmap loc Z)
  : option state :=
  match fs !! f with
  | Some p => Some (mkState (mkLazyExecute o f p false None [] []) os fs [])
  | None => None
  end.

(** [later(method, ...args)] (lines 47-51). *)
Definition later (method : string) (args : list value) : M unit :=
  modify_this (set_later method args).

(** [ignore(...args)] (lines 59-62). *)
Definition ignore (args : list string) : M unit :=
  modify_this (fun b => set_passthru (passthru b ++ args) b).

(** Instrumentation: note an invocation of the deferred method, with the
    position of the instance's file and the flag as they are right now. *)
Definition record_call : M unit :=
  fun s =>
    let b := self s in
    Ok tt (with_calls
             (calls s ++ [mkCall (key_of (loadMethod b)) (loadArgs b)
                                 (files s !! file b) (loaded b)]) s).

Section Traps.

(** How a function named by a function value is run: supplied below, once
    the interpreter of programs exists. *)
Variable inv : fn_id -> receiver -> list value -> M value.

(** What the free identifier [name] of the [apply] trap (line 75)
    resolves to in the global scope: [None] when nothing binds it. *)
Variable global_name : option value.

(** [fv.apply(thisArg, args)]: only a function has an [apply]. *)
Definition apply_value (fv : value) (r : receiver) (args : list value)
  : M value :=
  match fv with
  | VFun f => inv f r args
  | _ => throw TypeError
  end.

(** [now(method, ...args)] (lines 40-43). *)
Definition now (method : string) (args : list value) : M unit :=
  let* b := this in
  let* fv := member (obj b) method in
  apply_value fv (ThisObj (obj b)) args ;;;
  ret tt.

(** [load()] (lines 93-101), statement by statement; [this] is read anew
    in each statement, as the source does. *)
Definition load : M unit :=
  let* b0 := this in
  let* origPos := file_tell (file b0) in
  let* b1 := this in
  file_seek (file b1) (startPos b1) ;;;
  let* b2 := this in
  let* fv := member (obj b2) (key_of (loadMethod b2)) in
  match fv with VFun _ => record_call | _ => ret tt end ;;;
  apply_value fv (ThisObj (obj b2)) (loadArgs b2) ;;;
  let* b3 := this in
  file_seek (file b3) origPos ;;;
  modify_this (set_loaded true).

(** The [get] trap of the proxy (lines 66-73).  [target] is the object
    the proxy was made over, [this.obj].  The [console.log] lines of both
    traps write to the console only and are left out. *)
Definition proxy_get (name : string) : M value :=
  let* b := this in
  (if negb (loaded b) && negb (includes (passthru b) name)
   then load else ret tt) ;;;
  let* b' := this in
  member (obj b') name.

(** The code of the proxy's target when the target is a function. *)
Definition target_code : M fn_id :=
  fun s =>
    match objs s !! obj (self s) with
    | Some (mkObject _ (Some f)) => Ok f s
    | _ => Thrown TypeError s
    end.

(** Does the exempt list contain this value?  The list holds names. *)
Definition includes_value (l : list string) (v : value) : bool :=
  match v with
  | VStr n => includes l n
  | _ => false
  end.

(** The [apply] trap of the proxy (lines 74-81).  A proxy can be called
    only when its target is a function; the engine checks that before the
    trap runs.  [name] is not a parameter of the trap: it is looked up in
    the global scope, and only when the flag is false, as [&&] evaluates
    its right operand only then.  The trap has no [return]. *)
Definition proxy_apply (r : receiver) (args : list value) : M value :=
  let* f := target_code in
  let* b := this in
  (if negb (loaded b) then
     match global_name with
     | None => throw ReferenceError
     | Some v =>
         if negb (includes_value (passthru b) v) then load else ret tt
     end
   else ret tt) ;;;
  inv f r args ;;;
  ret VUndef.

(** [get()] (lines 64-83): the proxy over [this.obj] with the two traps. *)
Definition get : Proxy := mkProxy proxy_get proxy_apply.

(** Member reads and writes by receiver.  The proxy has no [set] trap, so
    a write through it goes to the target. *)
Definition read_member (r : receiver) (name : string) : M value :=
  match r with
  | ThisObj l => member l name
  | ThisWrapper => trap_get get name
  | ThisUndef => throw TypeError
  end.

Definition write_member (r : receiver) (name : string) (v : value)
  : M unit :=
  match r with
  | ThisObj l => set_member l name v
  | ThisWrapper => let* b := this in set_member (obj b) name v
  | ThisUndef => throw TypeError
  end.

(** The meaning of a collaborator's program. *)
Fixpoint interp (p : prog) : M value :=
  match p with
  | Return v => ret v
  | Throw e => throw e
  | Tell f k => let* x := file_tell f in interp (k x)
  | Seek f x k => file_seek f x ;;; interp k
  | GetMember r name k => let* v := read_member r name in interp (k v)
  | SetMember r name v k => write_member r name v ;;; interp k
  | Invoke fv r args k =>
      let* v := apply_value fv r args in interp (k v)
  | CallWrapper r args k =>
      let* v := trap_apply get r args in interp (k v)
  | TryCatch body h k =>
      let* v := try_catch (interp body) (fun e => interp (h e)) in
      interp (k v)
  end.

End Traps.

Section Run.

Variable code : code_table.
Variable global_name : option value.

(** Running a function: one unit of fuel per nested call. *)
Fixpoint invoke (n : nat) (f : fn_id) (r : receiver) (args : list value)
  : M value :=
  match n with
  | O => fun _ => OutOfFuel
  | S n' => interp (invoke n') global_name (code f r args)
  end.

(** A client program at call depth at most [n]. *)
Definition run (n : nat) (p : prog) : M value :=
  interp (invoke n) global_name p.

(** [wrapper[name]] and [wrapper(args)] as the client sees them. *)
Definition wrapper_get (n : nat) (name : string) : M value :=
  trap_get (get (invoke n) global_name) name.

Definition wrapper_apply (n : nat) (r : receiver) (args : list value)
  : M value :=
  trap_apply (get (invoke n) global_name) r args.

Definition lazy_load (n : nat) : M unit := load (invoke n).

End Run.

(** ** Specification vocabulary *)

(** A property of the state a computation ends in, whether it returned or
    threw; nothing is said of a computation that was cut. *)
Definition ends {A} (P : state -> Prop) (o : outcome A) : Prop :=
  match o with
  | Ok _ s' => P s'
  | Thrown _ s' => P s'
  | OutOfFuel => True
  end.

(** The part of the instance that is set up before [get()]. *)
Definition same_config (b b' : LazyExecute) : Prop :=
  obj b' = obj b /\ file b' = file b /\ startPos b' = startPos b /\
  loadMethod b' = loadMethod b /\ loadArgs b' = loadArgs b /\
  passthru b' = passthru b.

(** What [load] promises about each invocation it makes. *)
Definition call_ok (b : LazyExecute) (c : call) : Prop :=
  call_key c = key_of (loadMethod b) /\ call_args c = loadArgs b /\
  call_pos c = Some (startPos b) /\ call_loaded c = false.

(** How the world can change while collaborators run. *)
Record evolves (s s' : state) : Prop := mkEvolves {
  ev_config : same_config (self s) (self s');
  ev_loaded : loaded (self s) = true -> loaded (self s') = true;
  ev_files : forall f, is_Some (files s !! f) -> is_Some (files s' !! f);
  ev_objs : forall l, is_Some (objs s !! l) -> is_Some (objs s' !! l);
  ev_calls : exists l, calls s' = calls s ++ l /\
                       Forall (call_ok (self s)) l /\
                       (loaded (self s) = true -> l = [])
}.

(** No trace on the instance or on the record of invocations. *)
Definition quiet (s s' : state) : Prop :=
  self s' = self s /\ calls s' = calls s.

(** The state in which [load] starts the deferred method, and the state it
    leaves when the method returned in [s2]. *)
Definition begin_load (s : state) : state :=
  let b := self s in
  with_calls (calls s ++ [mkCall (key_of (loadMethod b)) (loadArgs b)
                                 (Some (startPos b)) (loaded b)])
             (with_files (<[file b := startPos b]> (files s)) s).

Definition end_load (origPos : Z) (s2 : state) : state :=
  with_self (set_loaded true (self s2))
            (with_files (<[file (self s2) := origPos]> (files s2)) s2).

(** The position of the instance's file. *)
Definition position (s : state) : option Z := files s !! file (self s).

(** The wrapped object as it is now. *)
Definition target (s : state) : option object := objs s !! obj (self s).

(** A program that never goes through a trap of the wrapper: it reads
    members and calls functions on objects only.  (A write through the
    wrapper meets no trap and is allowed.) *)
Inductive wrapper_free : prog -> Prop :=
| wf_Return v : wrapper_free (Return v)
| wf_Throw e : wrapper_free (Throw e)
| wf_Tell f k : (forall x, wrapper_free (k x)) -> wrapper_free (Tell f k)
| wf_Seek f x k : wrapper_free k -> wrapper_free (Seek f x k)
| wf_GetMember r name k :
    r <> ThisWrapper -> (forall v, wrapper_free (k v)) ->
    wrapper_free (GetMember r name k)
| wf_SetMember r name v k :
    wrapper_free k -> wrapper_free (SetMember r name v k)
| wf_Invoke fv r args k :
    r <> ThisWrapper -> (forall v, wrapper_free (k v)) ->
    wrapper_free (Invoke fv r args k)
| wf_TryCatch body h k :
    wrapper_free body -> (forall e, wrapper_free (h e)) ->
    (forall v, wrapper_free (k v)) ->
    wrapper_free (TryCatch body h k).

(** The functions of the code table reach the wrapper through [this] only:
    run on another receiver, their bodies are wrapper-free. *)
Definition no_captured_wrapper (code : code_table) : Prop :=
  forall f r args, r <> ThisWrapper -> wrapper_free (code f r args).

(** Reading several members through the wrapper, one after the other. *)
Fixpoint wrapper_get_all (code : code_table) (g : option value) (n : nat)
         (names : list string) : M (list value) :=
  match names with
  | [] => ret []
  | m :: rest =>
      let* v := wrapper_get code g n m in
      let* vs := wrapper_get_all code g n rest in
      ret (v :: vs)
  end.

(** [m'] decides whatever [m] decides, and in the same way: [m'] may only
    go on where [m] was cut. *)
Definition below {A} (m m' : M A) : Prop :=
  forall s, m s <> OutOfFuel -> m' s = m s.

(** Every run of [m] ends in a state related by [R] to the one it began
    in. *)
Definition respects (R : state -> state -> Prop) {A} (m : M A) : Prop :=
  forall s, ends (R s) (m s).

(** What [load] does, by cases on what it finds. *)
Definition load_cases (inv : fn_id -> receiver -> list value -> M value)
           (s : state) : outcome unit :=
  match position s with
  | None => Thrown TypeError s
  | Some origPos =>
      let s1 :=
        with_files (<[file (self s) := startPos (self s)]> (files s)) s in
      match target s with
      | None => Thrown TypeError s1
      | Some o =>
          match obj_get o (key_of (loadMethod (self s))) with
          | VFun f =>
              match inv f (ThisObj (obj (self s))) (loadArgs (self s))
                        (begin_load s) with
              | Ok _ s2 =>
                  match position s2 with
                  | Some _ => Ok tt (end_load origPos s2)
                  | None => Thrown TypeError s2
                  end
              | Thrown e s2 => Thrown e s2
              | OutOfFuel => OutOfFuel
              end
          | _ => Thrown TypeError s1
          end
      end
  end.


(** ** Concrete worlds *)

(** The file handle and the wrapped object of the examples. *)
Definition the_file : loc := 0%nat.
Definition the_image : loc := 1%nat.

(** An image whose size is known from the header; [skip] jumps over the
    pixel data, [parseImage] reads it from wherever the cursor stands and
    leaves the cursor behind it, [pixels] hands out what was read. *)
Definition image : object :=
  mkObject
    (list_to_map
       [("width", VNum 640); ("height", VNum 480); ("skip", VFun "skip");
        ("parseImage", VFun "parseImage"); ("parseFail", VFun "parseFail");
        ("parseAgain", VFun "parseAgain"); ("pixels", VFun "pixels")])
    None.

(** The bodies of the functions.  [parseFail] moves the cursor and throws.
    [parseAgain] holds a reference to the wrapper and reads a member
    through it the first time it runs.  [render] is the code of a target
    that is itself a function. *)
Definition demo_code : code_table :=
  fun f r args =>
    if String.eqb f "skip" then
      Seek the_file 500 (Return VUndef)
    else if String.eqb f "parseImage" then
      Tell the_file (fun p =>
        SetMember r "data" (VNum p)
          (Seek the_file (p + 300) (Return VUndef)))
    else if String.eqb f "parseFail" then
      Seek the_file 130 (Throw (UserError (VStr "bad data")))
    else if String.eqb f "pixels" then
      GetMember r "data" Return
    else if String.eqb f "render" then
      Return (VNum 7)
    else Return VUndef.

Definition reentrant_code : code_table :=
  fun f r args =>
    if String.eqb f "parseAgain" then
      GetMember r "busy" (fun b =>
        match b with
        | VBool true => Return VUndef
        | _ =>
            SetMember r "busy" (VBool true)
              (GetMember ThisWrapper "pixels" (fun _ => Return VUndef))
        end)
    else demo_code f r args.

(** The world after
    [new LazyExecute(image, file).now('skip').later(m).ignore('width',
    'height').get()], the file having stood at 100 before. *)
Definition configured (m : option string) : state :=
  mkState
    (mkLazyExecute the_image the_file 100 false m [] ["width"; "height"])
    {[ the_image := image ]} {[ the_file := 500 ]} [].

Definition demo_world : state := configured (Some "parseImage").
Definition failing_world : state := configured (Some "parseFail").
Definition reentrant_world : state := configured (Some "parseAgain").
Definition unconfigured_world : state := configured None.

(** A wrapper over a function, already loaded and not yet loaded. *)
Definition function_world (flag : bool) : state :=
  mkState
    (mkLazyExecute the_image the_file 100 flag (Some "parseImage") [] [])
    {[ the_image := mkObject ∅ (Some "render") ]} {[ the_file := 500 ]} [].

(** ** Further vocabulary and worlds *)

(** A program whose reads through the wrapper are all of names in [l], and
    which calls nothing with the wrapper as [this]. *)
Inductive exempt_only (l : list string) : prog -> Prop :=
| eo_Return v : exempt_only l (Return v)
| eo_Throw e : exempt_only l (Throw e)
| eo_Tell f k : (forall x, exempt_only l (k x)) -> exempt_only l (Tell f k)
| eo_Seek f x k : exempt_only l k -> exempt_only l (Seek f x k)
| eo_GetMember r name k :
    (r = ThisWrapper -> includes l name = true) ->
    (forall v, exempt_only l (k v)) ->
    exempt_only l (GetMember r name k)
| eo_SetMember r name v k :
    exempt_only l k -> exempt_only l (SetMember r name v k)
| eo_Invoke fv r args k :
    r <> ThisWrapper -> (forall v, exempt_only l (k v)) ->
    exempt_only l (Invoke fv r args k)
| eo_TryCatch body h k :
    exempt_only l body -> (forall e, exempt_only l (h e)) ->
    (forall v, exempt_only l (k v)) ->
    exempt_only l (TryCatch body h k).

(** The functions of the code table, run on a receiver other than the
    wrapper, read through the wrapper names of [l] only. *)
Definition reads_exempt_only (code : code_table) (l : list string) : Prop :=
  forall f r args, r <> ThisWrapper -> exempt_only l (code f r args).

(** No trace on the instance, as long as the exempt list is [l]. *)
Definition quiet_while (l : list string) (s s' : state) : Prop :=
  passthru (self s) = l -> quiet s s'.

(** The world right after [new LazyExecute(image, file)], the file
    standing at 100. *)
Definition fresh_world : state :=
  mkState (mkLazyExecute the_image the_file 100 false None [] [])
          {[ the_image := image ]} {[ the_file := 100 ]} [].

(** [parseAgain] reading a member through the wrapper every time it runs,
    and [parseAgain] reading an exempt member through the wrapper. *)
Definition looping_code : code_table :=
  fun f r args =>
    if String.eqb f "parseAgain" then
      GetMember ThisWrapper "pixels" (fun _ => Return VUndef)
    else demo_code f r args.

Definition polite_code : code_table :=
  fun f r args =>
    if String.eqb f "parseAgain" then
      GetMember ThisWrapper "width" (fun w =>
        SetMember r "data" w (Return VUndef))
    else demo_code f r args.

(** [parseAgain] failing the first time it runs and working the second
    time. *)
Definition flaky_code : code_table :=
  fun f r args =>
    if String.eqb f "parseAgain" then
      GetMember r "tried" (fun t =>
        match t with
        | VBool true => SetMember r "data" (VNum 1) (Return VUndef)
        | _ =>
            SetMember r "tried" (VBool true)
              (Seek the_file 130 (Throw (UserError (VStr "bad data"))))
        end)
    else demo_code f r args.

(** ** Basic facts *)

Lemma includes_elem_of (l : list string) (x : string) :
  includes l x = true <-> x ∈ l.
Proof.
  induction l as [|y l IH]; simpl.
  - split; [discriminate | intros H; inversion H].
  - destruct (String.eqb_spec y x) as [->|Hne].
    + split; [intros _; left | reflexivity].
    + rewrite IH. split; [intros H; right; exact H |].
      intros H. inversion H; subst; [contradiction | assumption].
Qed.

Lemma includes_app (l1 l2 : list string) (x : string) :
  includes (l1 ++ l2) x = includes l1 x || includes l2 x.
Proof.
  induction l1 as [|y l1 IH]; simpl; [reflexivity |].
  destruct (String.eqb y x); [reflexivity | exact IH].
Qed.

Lemma same_config_refl b : same_config b b.
Proof. repeat split. Qed.

Lemma same_config_trans b1 b2 b3 :
  same_config b1 b2 -> same_config b2 b3 -> same_config b1 b3.
Proof.
  unfold same_config. intros (?&?&?&?&?&?) (?&?&?&?&?&?).
  repeat split; congruence.
Qed.

Lemma call_ok_config b b' c :
  same_config b b' -> call_ok b' c -> call_ok b c.
Proof.
  unfold same_config, call_ok. intros (?&?&?&?&?&?) (?&?&?&?).
  repeat split; congruence.
Qed.

Lemma evolves_refl s : evolves s s.
Proof.
  split; auto using same_config_refl.
  exists []. rewrite app_nil_r. auto.
Qed.

Lemma evolves_trans s1 s2 s3 :
  evolves s1 s2 -> evolves s2 s3 -> evolves s1 s3.
Proof.
  intros [C1 L1 F1 O1 (l1 & E1 & A1 & N1)] [C2 L2 F2 O2 (l2 & E2 & A2 & N2)].
  split; eauto using same_config_trans.
  exists (l1 ++ l2). split; [| split].
  - rewrite E2, E1, app_assoc. reflexivity.
  - apply Forall_app. split; [assumption |].
    eapply Forall_impl; [exact A2 |].
    intros c Hc. eapply call_ok_config; eassumption.
  - intros H. rewrite (N1 H), (N2 (L1 H)). reflexivity.
Qed.

Lemma quiet_refl s : quiet s s.
Proof. split; reflexivity. Qed.

Lemma quiet_trans s1 s2 s3 : quiet s1 s2 -> quiet s2 s3 -> quiet s1 s3.
Proof. unfold quiet. intros [? ?] [? ?]. split; congruence. Qed.

Lemma ends_impl {A} (P Q : state -> Prop) (o : outcome A) :
  (forall s, P s -> Q s) -> ends P o -> ends Q o.
Proof. destruct o; simpl; auto. Qed.

(** ** A small relational logic for the monad *)

Section Respects.

Variable R : state -> state -> Prop.
Hypothesis R_refl : forall s, R s s.
Hypothesis R_trans : forall s1 s2 s3, R s1 s2 -> R s2 s3 -> R s1 s3.

Lemma respects_ret {A} (a : A) : respects R (ret a).
Proof. intros s. simpl. apply R_refl. Qed.

Lemma respects_throw {A} (e : error) : respects R (@throw A e).
Proof. intros s. simpl. apply R_refl. Qed.

Lemma respects_this : respects R this.
Proof. intros s. simpl. apply R_refl. Qed.

Lemma ends_bind {A B} (m : M A) (k : A -> M B) s :
  ends (R s) (m s) -> (forall a, respects R (k a)) ->
  ends (R s) (bind m k s).
Proof.
  intros Hm Hk. unfold bind.
  destruct (m s) as [a s1|e s1|]; simpl in *; [| assumption | exact I].
  eapply ends_impl; [| apply Hk]. intros s2. apply R_trans. exact Hm.
Qed.

Lemma respects_bind {A B} (m : M A) (k : A -> M B) :
  respects R m -> (forall a, respects R (k a)) -> respects R (bind m k).
Proof. intros Hm Hk s. apply ends_bind; auto. Qed.

Lemma respects_try_catch {A} (m : M A) (h : error -> M A) :
  respects R m -> (forall e, respects R (h e)) ->
  respects R (try_catch m h).
Proof.
  intros Hm Hh s. unfold try_catch. specialize (Hm s).
  destruct (m s) as [a s1|e s1|]; simpl in *; [assumption | | exact I].
  eapply ends_impl; [| apply Hh]. intros s2. apply R_trans. exact Hm.
Qed.

End Respects.

Create HintDb lazy.
#[local] Hint Resolve evolves_refl quiet_refl : lazy.
#[local] Hint Resolve respects_ret respects_throw respects_this : lazy.

(** The primitive steps change neither the instance nor the record of
    invocations, and remove nothing from the heap. *)

Lemma file_seek_is_Some f p s g :
  is_Some (files s !! g) -> is_Some (<[f := p]> (files s) !! g).
Proof.
  intros H. destruct (decide (f = g)) as [->|Hne].
  - rewrite lookup_insert_eq. eauto.
  - rewrite lookup_insert_ne by assumption. exact H.
Qed.

Lemma set_member_is_Some l o s k :
  is_Some (objs s !! k) -> is_Some (<[l := o]> (objs s) !! k).
Proof.
  intros H. destruct (decide (l = k)) as [->|Hne].
  - rewrite lookup_insert_eq. eauto.
  - rewrite lookup_insert_ne by assumption. exact H.
Qed.

Lemma evolves_with_files s fs :
  (forall g, is_Some (files s !! g) -> is_Some (fs !! g)) ->
  evolves s (with_files fs s).
Proof.
  intros H. split; simpl; auto using same_config_refl.
  exists []. rewrite app_nil_r. auto.
Qed.

Lemma evolves_with_objs s os :
  (forall k, is_Some (objs s !! k) -> is_Some (os !! k)) ->
  evolves s (with_objs os s).
Proof.
  intros H. split; simpl; auto using same_config_refl.
  exists []. rewrite app_nil_r. auto.
Qed.

Lemma evolves_set_loaded s :
  evolves s (with_self (set_loaded true (self s)) s).
Proof.
  split; simpl; auto; [repeat split |].
  exists []. rewrite app_nil_r. auto.
Qed.

Lemma file_tell_evolves f : respects evolves (file_tell f).
Proof.
  intros s. unfold file_tell. destruct (files s !! f); simpl; auto with lazy.
Qed.

Lemma file_seek_evolves f p : respects evolves (file_seek f p).
Proof.
  intros s. unfold file_seek. destruct (files s !! f); simpl; auto with lazy.
  apply evolves_with_files. intros g. apply file_seek_is_Some.
Qed.

Lemma member_evolves l name : respects evolves (member l name).
Proof.
  intros s. unfold member. destruct (objs s !! l); simpl; auto with lazy.
Qed.

Lemma set_member_evolves l name v : respects evolves (set_member l name v).
Proof.
  intros s. unfold set_member. destruct (objs s !! l); simpl; auto with lazy.
  apply evolves_with_objs. intros k. apply set_member_is_Some.
Qed.

Lemma file_tell_quiet f : respects quiet (file_tell f).
Proof.
  intros s. unfold file_tell. destruct (files s !! f); simpl; auto with lazy.
Qed.

Lemma file_seek_quiet f p : respects quiet (file_seek f p).
Proof.
  intros s. unfold file_seek.
  destruct (files s !! f); simpl; auto with lazy. split; reflexivity.
Qed.

Lemma member_quiet l name : respects quiet (member l name).
Proof.
  intros s. unfold member. destruct (objs s !! l); simpl; auto with lazy.
Qed.

Lemma set_member_quiet l name v : respects quiet (set_member l name v).
Proof.
  intros s. unfold set_member.
  destruct (objs s !! l); simpl; auto with lazy. split; reflexivity.
Qed.

#[local] Hint Resolve file_tell_evolves file_seek_evolves member_evolves
  set_member_evolves file_tell_quiet file_seek_quiet member_quiet
  set_member_quiet : lazy.

(** Goals of the relational logic are split along the shape of the
    computation; what is left is about a primitive or a trap. *)
Ltac lawful :=
  repeat match goal with
    | |- forall s1 s2 s3, evolves s1 s2 -> _ => exact evolves_trans
    | |- forall s1 s2 s3, quiet s1 s2 -> _ => exact quiet_trans
    | |- forall s, evolves s s => exact evolves_refl
    | |- forall s, quiet s s => exact quiet_refl
    | |- respects _ (ret _) => apply respects_ret
    | |- respects _ (throw _) => apply respects_throw
    | |- respects _ this => apply respects_this
    | |- respects _ (bind _ _) => apply respects_bind
    | |- respects _ (try_catch _ _) => apply respects_try_catch
    | |- respects _ (file_tell _) => solve [auto with lazy]
    | |- respects _ (file_seek _ _) => solve [auto with lazy]
    | |- respects _ (member _ _) => solve [auto with lazy]
    | |- respects _ (set_member _ _ _) => solve [auto with lazy]
    | |- forall _, _ => intro
    end.

(** ** [load], step by step *)

Section LoadSteps.

Variable inv : fn_id -> receiver -> list value -> M value.

Lemma load_unfold s : load inv s = load_cases inv s.
Proof.
  unfold load, load_cases, position, target, bind, this, file_tell.
  destruct (files s !! file (self s)) as [p|] eqn:Hp; [| reflexivity].
  unfold file_seek. simpl. rewrite Hp. simpl.
  unfold member. simpl.
  destruct (objs s !! obj (self s)) as [o|] eqn:Ho; [| reflexivity].
  simpl.
  destruct (obj_get o (key_of (loadMethod (self s)))) eqn:Hf;
    try reflexivity.
  simpl. unfold record_call, begin_load. simpl.
  rewrite lookup_insert_eq.
  destruct (inv f _ _ _) as [v s2|e s2|]; try reflexivity.
  simpl. destruct (files s2 !! file (self s2)); reflexivity.
Qed.

End LoadSteps.

(** ** The world evolves lawfully *)

Lemma evolves_begin_load s :
  loaded (self s) = false -> evolves s (begin_load s).
Proof.
  intros Hl. split; simpl; auto using same_config_refl.
  - intros g. apply file_seek_is_Some.
  - eexists. split; [reflexivity |]. split.
    + constructor; [| constructor]. repeat split; simpl; auto.
    + congruence.
Qed.

Lemma evolves_end_load p s : evolves s (end_load p s).
Proof.
  apply evolves_trans
    with (with_files (<[file (self s) := p]> (files s)) s).
  - apply evolves_with_files. intros g. apply file_seek_is_Some.
  - apply (evolves_set_loaded (with_files _ s)).
Qed.

Section Lawful.

Variable inv : fn_id -> receiver -> list value -> M value.
Variable global_name : option value.
Hypothesis inv_evolves : forall f r args, respects evolves (inv f r args).

Lemma load_evolves s :
  loaded (self s) = false -> ends (evolves s) (load inv s).
Proof.
  intros Hl. rewrite load_unfold. unfold load_cases.
  destruct (position s) as [p|]; simpl; auto with lazy.
  assert (evolves s (with_files
            (<[file (self s) := startPos (self s)]> (files s)) s)) as Hs1.
  { apply evolves_with_files. intros g. apply file_seek_is_Some. }
  destruct (target s) as [o|]; simpl; auto.
  destruct (obj_get o _); simpl; auto.
  pose proof (inv_evolves f (ThisObj (obj (self s))) (loadArgs (self s))
                          (begin_load s)) as Hi.
  pose proof (evolves_begin_load s Hl) as Hb.
  destruct (inv f _ _ _) as [v s2|e s2|]; simpl in *; auto.
  - destruct (position s2); simpl.
    + eauto using evolves_trans, evolves_end_load.
    + eauto using evolves_trans.
  - eauto using evolves_trans.
Qed.

Lemma apply_value_evolves fv r args :
  respects evolves (apply_value inv fv r args).
Proof. destruct fv; simpl; auto with lazy. Qed.

Lemma proxy_get_evolves name : respects evolves (proxy_get inv name).
Proof.
  intros s. unfold proxy_get. unfold bind at 1. unfold this at 1.
  apply ends_bind; [exact evolves_trans | | lawful].
  destruct (loaded (self s)) eqn:Hl; simpl; auto with lazy.
  destruct (includes _ _); simpl; auto using load_evolves with lazy.
Qed.

Lemma target_code_evolves : respects evolves target_code.
Proof.
  intros s. unfold target_code.
  destruct (objs s !! obj (self s)) as [[fs [f|]]|]; simpl; auto with lazy.
Qed.

Lemma proxy_apply_evolves r args :
  respects evolves (proxy_apply inv global_name r args).
Proof.
  unfold proxy_apply.
  apply respects_bind;
    [exact evolves_trans | exact target_code_evolves |].
  intros f s. unfold bind at 1. unfold this at 1.
  apply ends_bind; [exact evolves_trans | | lawful; apply inv_evolves].
  destruct (loaded (self s)) eqn:Hl; simpl; auto with lazy.
  destruct global_name as [v|]; simpl; auto with lazy.
  destruct (includes_value _ _); simpl; auto using load_evolves with lazy.
Qed.

Lemma read_member_evolves r name :
  respects evolves (read_member inv global_name r name).
Proof. destruct r; simpl; lawful. apply proxy_get_evolves. Qed.

Lemma write_member_evolves r name v :
  respects evolves (write_member r name v).
Proof.
  destruct r; simpl; lawful.
Qed.

Lemma interp_evolves p : respects evolves (interp inv global_name p).
Proof.
  induction p; simpl; lawful;
    auto using read_member_evolves, write_member_evolves,
      apply_value_evolves, proxy_apply_evolves.
Qed.

End Lawful.

Lemma invoke_evolves code g n f r args :
  respects evolves (invoke code g n f r args).
Proof.
  revert f r args. induction n as [|n IH]; intros f r args; simpl.
  - intros s. exact I.
  - apply interp_evolves. exact IH.
Qed.

Lemma run_evolves code g n p : respects evolves (run code g n p).
Proof. apply interp_evolves. apply invoke_evolves. Qed.

(** ** Code that does not go through the wrapper leaves no trace *)

Section Quiet.

Variable inv : fn_id -> receiver -> list value -> M value.
Variable global_name : option value.
Hypothesis inv_quiet :
  forall f r args, r <> ThisWrapper -> respects quiet (inv f r args).

Lemma apply_value_quiet fv r args :
  r <> ThisWrapper -> respects quiet (apply_value inv fv r args).
Proof. intros Hr. destruct fv; simpl; lawful. auto. Qed.

Lemma read_member_quiet r name :
  r <> ThisWrapper -> respects quiet (read_member inv global_name r name).
Proof. intros Hr. destruct r; simpl; lawful. contradiction. Qed.

Lemma write_member_quiet r name v : respects quiet (write_member r name v).
Proof. destruct r; simpl; lawful. Qed.

Lemma interp_quiet p :
  wrapper_free p -> respects quiet (interp inv global_name p).
Proof.
  induction 1; simpl; lawful;
    auto using apply_value_quiet, read_member_quiet, write_member_quiet.
Qed.

End Quiet.

Lemma invoke_quiet code g n f r args :
  no_captured_wrapper code -> r <> ThisWrapper ->
  respects quiet (invoke code g n f r args).
Proof.
  intros Hc. revert f r args.
  induction n as [|n IH]; intros f r args Hr; simpl.
  - intros s. exact I.
  - apply interp_quiet; [exact IH | apply Hc; exact Hr].
Qed.

(** ** More fuel changes nothing that was decided *)

Lemma below_refl {A} (m : M A) : below m m.
Proof. intros s _. reflexivity. Qed.

Lemma below_bind {A B} (m m' : M A) (k k' : A -> M B) :
  below m m' -> (forall a, below (k a) (k' a)) ->
  below (bind m k) (bind m' k').
Proof.
  intros Hm Hk s. unfold bind. intros H.
  rewrite Hm by (intros E; rewrite E in H; contradiction).
  destruct (m s) as [a s1|e s1|]; [| reflexivity | contradiction].
  apply Hk. exact H.
Qed.

Lemma below_try_catch {A} (m m' : M A) (h h' : error -> M A) :
  below m m' -> (forall e, below (h e) (h' e)) ->
  below (try_catch m h) (try_catch m' h').
Proof.
  intros Hm Hh s. unfold try_catch. intros H.
  rewrite Hm by (intros E; rewrite E in H; contradiction).
  destruct (m s) as [a s1|e s1|]; [reflexivity | | contradiction].
  apply Hh. exact H.
Qed.

Ltac fuel :=
  repeat match goal with
    | |- below ?m ?m => apply below_refl
    | |- below (bind _ _) (bind _ _) => apply below_bind
    | |- below (try_catch _ _) (try_catch _ _) => apply below_try_catch
    | |- forall _, _ => intro
    end.

Section Fuel.

Variables inv inv' : fn_id -> receiver -> list value -> M value.
Variable global_name : option value.
Hypothesis inv_below : forall f r args, below (inv f r args) (inv' f r args).

Lemma apply_value_below fv r args :
  below (apply_value inv fv r args) (apply_value inv' fv r args).
Proof. destruct fv; simpl; fuel. apply inv_below. Qed.

Lemma load_below : below (load inv) (load inv').
Proof. unfold load. fuel. apply apply_value_below. Qed.

Lemma proxy_get_below name : below (proxy_get inv name) (proxy_get inv' name).
Proof.
  unfold proxy_get. fuel.
  destruct (negb (loaded a) && negb (includes (passthru a) name)); fuel.
  apply load_below.
Qed.

Lemma proxy_apply_below r args :
  below (proxy_apply inv global_name r args)
        (proxy_apply inv' global_name r args).
Proof.
  unfold proxy_apply. fuel; [| apply inv_below].
  destruct (negb (loaded a0)); fuel.
  destruct global_name as [v|]; fuel.
  destruct (negb (includes_value (passthru a0) v)); fuel.
  apply load_below.
Qed.

Lemma read_member_below r name :
  below (read_member inv global_name r name)
        (read_member inv' global_name r name).
Proof. destruct r; simpl; fuel. apply proxy_get_below. Qed.

Lemma interp_below p :
  below (interp inv global_name p) (interp inv' global_name p).
Proof.
  induction p; simpl; fuel;
    auto using read_member_below, apply_value_below, proxy_apply_below.
Qed.

End Fuel.

Lemma invoke_below code g n f r args :
  below (invoke code g n f r args) (invoke code g (S n) f r args).
Proof.
  revert f r args. induction n as [|n IH]; intros f r args.
  - intros s H. exfalso. apply H. reflexivity.
  - change (below (interp (invoke code g n) g (code f r args))
                  (interp (invoke code g (S n)) g (code f r args))).
    apply interp_below. exact IH.
Qed.

Lemma invoke_more_fuel code g n m f r args :
  (n <= m)%nat -> below (invoke code g n f r args) (invoke code g m f r args).
Proof.
  induction 1 as [|m _ IH]; [apply below_refl |].
  intros s H. rewrite <- (IH s H).
  apply invoke_below. rewrite (IH s H). exact H.
Qed.

(** A client program that ended keeps its result at any greater depth. *)
Lemma run_more_fuel code g n m p :
  (n <= m)%nat -> below (run code g n p) (run code g m p).
Proof.
  intros H. apply interp_below. intros f r args.
  apply invoke_more_fuel. exact H.
Qed.

(** ** [load] on top of the interpreter *)

Section LoadFacts.

Variable code : code_table.
Variable g : option value.

Lemma lazy_load_cases n s :
  lazy_load code g n s = load_cases (invoke code g n) s.
Proof. apply load_unfold. Qed.

(** The deferred method cannot make the instance's file disappear, nor
    re-target the instance. *)
Lemma position_after_method n f r args s v s2 :
  invoke code g n f r args (begin_load s) = Ok v s2 ->
  is_Some (position s) -> is_Some (position s2).
Proof.
  intros Hi Hp.
  pose proof (invoke_evolves code g n f r args (begin_load s)) as He.
  rewrite Hi in He. simpl in He. destruct He as [(_ & Hf & _) _ Hfs _ _].
  unfold position. rewrite Hf. apply Hfs. simpl.
  apply file_seek_is_Some. exact Hp.
Qed.

(** If the deferred method returns, so does [load], in a known state. *)
Lemma load_returns n s p o f v s2 :
  position s = Some p ->
  target s = Some o ->
  obj_get o (key_of (loadMethod (self s))) = VFun f ->
  invoke code g n f (ThisObj (obj (self s))) (loadArgs (self s))
         (begin_load s) = Ok v s2 ->
  lazy_load code g n s = Ok tt (end_load p s2).
Proof.
  intros Hp Ho Hf Hi. rewrite lazy_load_cases. unfold load_cases.
  rewrite Hp, Ho. simpl. rewrite Hf, Hi.
  destruct (position_after_method _ _ _ _ _ _ _ Hi) as [p2 Hp2];
    [rewrite Hp; eauto |].
  rewrite Hp2. reflexivity.
Qed.

(** If the deferred method throws, [load] stops there. *)
Lemma load_throws n s p o f e s2 :
  position s = Some p ->
  target s = Some o ->
  obj_get o (key_of (loadMethod (self s))) = VFun f ->
  invoke code g n f (ThisObj (obj (self s))) (loadArgs (self s))
         (begin_load s) = Thrown e s2 ->
  lazy_load code g n s = Thrown e s2.
Proof.
  intros Hp Ho Hf Hi. rewrite lazy_load_cases. unfold load_cases.
  rewrite Hp, Ho. simpl. rewrite Hf, Hi. reflexivity.
Qed.

(** And [load] returns in no other way. *)
Lemma load_inversion n s s' :
  lazy_load code g n s = Ok tt s' ->
  exists p o f v s2,
    position s = Some p /\ target s = Some o /\
    obj_get o (key_of (loadMethod (self s))) = VFun f /\
    invoke code g n f (ThisObj (obj (self s))) (loadArgs (self s))
           (begin_load s) = Ok v s2 /\
    s' = end_load p s2.
Proof.
  rewrite lazy_load_cases. unfold load_cases.
  destruct (position s) as [p|]; [| discriminate].
  destruct (target s) as [o|]; [| discriminate]. simpl.
  destruct (obj_get o _) eqn:Hf; try discriminate.
  destruct (invoke _ _ _ _ _ _ _) as [v s2|e s2|] eqn:Hi; try discriminate.
  destruct (position s2); [| discriminate].
  intros [= <-]. exists p, o, f, v, s2. auto.
Qed.

Lemma position_end_load p s2 : position (end_load p s2) = Some p.
Proof. unfold position, end_load. simpl. apply lookup_insert_eq. Qed.

Lemma loaded_end_load p s2 : loaded (self (end_load p s2)) = true.
Proof. reflexivity. Qed.

Lemma config_end_load p s2 : same_config (self s2) (self (end_load p s2)).
Proof. repeat split. Qed.

Lemma target_end_load p s2 : target (end_load p s2) = target s2.
Proof. reflexivity. Qed.

Lemma calls_end_load p s2 : calls (end_load p s2) = calls s2.
Proof. reflexivity. Qed.

(** The [get] trap, by cases on the flag and the exempt list. *)
Lemma wrapper_get_loads n name s :
  loaded (self s) = false ->
  includes (passthru (self s)) name = false ->
  wrapper_get code g n name s =
  (lazy_load code g n ;;; let* b := this in member (obj b) name) s.
Proof.
  intros Hl Hx. unfold wrapper_get, get, trap_get, proxy_get, lazy_load.
  unfold bind at 1. unfold this at 1. rewrite Hl, Hx. reflexivity.
Qed.

Lemma wrapper_get_forwards n name s :
  loaded (self s) = true \/ includes (passthru (self s)) name = true ->
  wrapper_get code g n name s = member (obj (self s)) name s.
Proof.
  intros H. unfold wrapper_get, get, trap_get, proxy_get.
  unfold bind at 1. unfold this at 1.
  assert (negb (loaded (self s)) && negb (includes (passthru (self s)) name)
          = false) as ->.
  { destruct H as [-> | ->]; simpl; [reflexivity | apply andb_false_r]. }
  reflexivity.
Qed.

(** Once the flag is set, nothing invokes the deferred method again. *)
Lemma loaded_is_final n q s :
  loaded (self s) = true ->
  ends (fun s' => calls s' = calls s /\ loaded (self s') = true)
       (run code g n q s).
Proof.
  intros Hl. eapply ends_impl; [| apply run_evolves].
  intros s' [_ HL _ _ (l & E & _ & N)]. split; [| auto].
  rewrite E, (N Hl). apply app_nil_r.
Qed.

End LoadFacts.

(** ** The examples run *)

Example configured_by_chain :
  (let* _ := now (invoke demo_code None 1) "skip" [] in
   let* _ := later "parseImage" [] in
   ignore ["width"; "height"]) <$>
    constructor the_image the_file {[ the_image := image ]}
                {[ the_file := 100 ]}
  = Some (Ok tt demo_world).
Proof. vm_compute. reflexivity. Qed.

Example exempt_read_example :
  wrapper_get demo_code None 1 "width" demo_world = Ok (VNum 640) demo_world.
Proof. vm_compute. reflexivity. Qed.

Example first_call_example :
  exists s',
    run demo_code None 2 (CallMember ThisWrapper "pixels" [] Return)
        demo_world = Ok (VNum 100) s' /\
    position s' = Some 500 /\ loaded (self s') = true /\
    calls s' = [mkCall "parseImage" [] (Some 100) false].
Proof. eexists. vm_compute. repeat split; reflexivity. Qed.

Example seek_then_call_example :
  exists s',
    run demo_code None 2
        (Seek the_file 777 (CallMember ThisWrapper "pixels" [] Return))
        demo_world = Ok (VNum 100) s' /\
    position s' = Some 777 /\
    calls s' = [mkCall "parseImage" [] (Some 100) false].
Proof. eexists. vm_compute. repeat split; reflexivity. Qed.

Lemma demo_code_no_captured_wrapper : no_captured_wrapper demo_code.
Proof.
  intros f r args Hr. unfold demo_code.
  repeat match goal with
         | |- context [String.eqb ?a ?b] => destruct (String.eqb a b)
         end;
    repeat (constructor; auto).
Qed.

(** ** The stream position around a load *)

(** C4.  After a triggered load has completed, the position of the stream
    is the one recorded just before the load began, whatever the deferred
    method did to the stream: this holds of every run of [load] that
    returns and of every access through the wrapper that triggers it; and
    [load] does return whenever the deferred method does. *)
Theorem load_restores_position code g n s p :
  position s = Some p ->
  (forall s', lazy_load code g n s = Ok tt s' -> position s' = Some p) /\
  (forall name v s',
      loaded (self s) = false ->
      includes (passthru (self s)) name = false ->
      wrapper_get code g n name s = Ok v s' -> position s' = Some p) /\
  (forall o f v s2,
      target s = Some o ->
      obj_get o (key_of (loadMethod (self s))) = VFun f ->
      invoke code g n f (ThisObj (obj (self s))) (loadArgs (self s))
             (begin_load s) = Ok v s2 ->
      exists s', lazy_load code g n s = Ok tt s' /\ position s' = Some p).
Proof.
  intros Hp.
  assert (forall s', lazy_load code g n s = Ok tt s' -> position s' = Some p)
    as Hload.
  { intros s' H. apply load_inversion in H.
    destruct H as (p' & o & f & v & s2 & Hp' & _ & _ & _ & ->).
    rewrite position_end_load. congruence. }
  split; [exact Hload |]. split.
  - intros name v s' Hl Hx. rewrite wrapper_get_loads by assumption.
    unfold bind at 1.
    destruct (lazy_load code g n s) as [[] s1|e s1|] eqn:H1; try discriminate.
    unfold bind, this, member.
    destruct (objs s1 !! obj (self s1)); [| discriminate].
    intros [= _ <-]. apply Hload. reflexivity.
  - intros o f v s2 Ho Hf Hi. exists (end_load p s2).
    split; [eapply load_returns; eassumption | apply position_end_load].
Qed.

Lemma load_restores_position_witness :
  position demo_world = Some 500 /\
  exists s', lazy_load demo_code None 1 demo_world = Ok tt s' /\
             position s' = Some 500.
Proof.
  split; [reflexivity |].
  destruct (load_restores_position demo_code None 1 demo_world 500
              eq_refl) as (_ & _ & H).
  eapply (H image "parseImage"); vm_compute; reflexivity.
Defined.

(** ** What [load] leaves alone *)

(** C10.  A load that succeeds changes, of the instance's own state, the
    flag only: the wrapped object, the file, the start position, the name
    and the arguments of the deferred method and the exempt list are as
    before. *)
Theorem load_changes_only_the_flag code g n s :
  (forall s',
      lazy_load code g n s = Ok tt s' ->
      same_config (self s) (self s') /\ loaded (self s') = true) /\
  (forall p o f v s2,
      position s = Some p ->
      target s = Some o ->
      obj_get o (key_of (loadMethod (self s))) = VFun f ->
      invoke code g n f (ThisObj (obj (self s))) (loadArgs (self s))
             (begin_load s) = Ok v s2 ->
      exists s', lazy_load code g n s = Ok tt s' /\
                 same_config (self s) (self s') /\ loaded (self s') = true).
Proof.
  assert (forall s',
             lazy_load code g n s = Ok tt s' ->
             same_config (self s) (self s') /\ loaded (self s') = true)
    as Hload.
  { intros s' H. apply load_inversion in H.
    destruct H as (p & o & f & v & s2 & _ & _ & _ & Hi & ->).
    split; [| reflexivity].
    pose proof (invoke_evolves code g n f (ThisObj (obj (self s)))
                  (loadArgs (self s)) (begin_load s)) as He.
    rewrite Hi in He. simpl in He.
    eapply same_config_trans; [apply (ev_config _ _ He) |].
    apply config_end_load. }
  split; [exact Hload |].
  intros p o f v s2 Hp Ho Hf Hi. exists (end_load p s2).
  assert (lazy_load code g n s = Ok tt (end_load p s2)) as H
    by (eapply load_returns; eassumption).
  split; [exact H | apply Hload; exact H].
Qed.

Lemma load_changes_only_the_flag_witness :
  exists s', lazy_load demo_code None 1 demo_world = Ok tt s' /\
             same_config (self demo_world) (self s') /\
             loaded (self s') = true.
Proof.
  destruct (load_changes_only_the_flag demo_code None 1 demo_world)
    as (_ & H).
  eapply (H 500 image "parseImage"); vm_compute; reflexivity.
Defined.

(** ** Where the stream stands when the deferred method starts *)

Lemma evolves_calls_pos s s' p :
  evolves s s' -> startPos (self s) = p ->
  Forall (fun c => call_pos c = Some p) (calls s) ->
  Forall (fun c => call_pos c = Some p) (calls s').
Proof.
  intros [_ _ _ _ (l & -> & Hl & _)] Hp Hs. apply Forall_app.
  split; [exact Hs |]. eapply Forall_impl; [exact Hl |].
  intros c (_ & _ & Hc & _). congruence.
Qed.

Lemma now_evolves code g n m args :
  respects evolves (now (invoke code g n) m args).
Proof.
  unfold now. lawful. apply apply_value_evolves. apply invoke_evolves.
Qed.

(** C5.  The start position is the position of the file when the instance
    was constructed, and every invocation of the deferred method that
    [load] makes finds the file at exactly that position: through the whole
    chain [new LazyExecute(o, f).now(..).later(..).ignore(..).get()]
    followed by any client program [q], however it moves the stream before
    it touches the wrapper; and from any state whatsoever. *)
Theorem deferred_method_runs_at_start
        code g o f os fs p0 s0 n m margs k kargs ex q :
  fs !! f = Some p0 ->
  constructor o f os fs = Some s0 ->
  startPos (self s0) = p0 /\
  ends (fun s' => Forall (fun c => call_pos c = Some p0) (calls s'))
       ((now (invoke code g n) m margs ;;; later k kargs ;;; ignore ex ;;;
         run code g n q) s0) /\
  (forall s,
      ends (fun s' => exists l,
                calls s' = calls s ++ l /\
                Forall (fun c => call_pos c = Some (startPos (self s))) l)
           (run code g n q s)).
Proof.
  intros Hf Hc. unfold constructor in Hc. rewrite Hf in Hc.
  injection Hc as <-. split; [reflexivity |]. split.
  - set (s0 := mkState _ os fs []).
    assert (Forall (fun c => call_pos c = Some p0) (calls s0)) as H0
      by constructor.
    unfold bind at 1.
    pose proof (now_evolves code g n m margs s0) as Hn.
    destruct (now _ m margs s0) as [[] s1|e s1|]; simpl in *;
      [| eapply evolves_calls_pos; eauto | exact I].
    assert (Forall (fun c => call_pos c = Some p0) (calls s1)) as H1
      by (eapply evolves_calls_pos; eauto).
    assert (startPos (self s1) = p0) as Hp1
      by (destruct Hn as [(_ & _ & Hp & _) _ _ _ _]; exact Hp).
    unfold bind, later, ignore, modify_this. simpl.
    match goal with
    | |- ends _ (run _ _ _ _ ?s3) =>
        pose proof (run_evolves code g n q s3) as Hr;
        destruct (run code g n q s3) as [v s4|e s4|]; simpl in *;
        [ eapply (evolves_calls_pos s3); eauto
        | eapply (evolves_calls_pos s3); eauto
        | exact I ]
    end.
  - intros s. eapply ends_impl; [| apply run_evolves].
    intros s' [_ _ _ _ (l & E & Hl & _)]. exists l. split; [exact E |].
    eapply Forall_impl; [exact Hl |]. intros c (_ & _ & Hc' & _). exact Hc'.
Qed.

Lemma deferred_method_runs_at_start_witness :
  ({[ the_file := 100 ]} : gmap loc Z) !! the_file = Some 100 /\
  ends (fun s' => Forall (fun c => call_pos c = Some 100) (calls s'))
       ((now (invoke demo_code None 2) "skip" [] ;;;
         later "parseImage" [] ;;; ignore ["width"; "height"] ;;;
         run demo_code None 2
             (Seek the_file 777 (GetMember ThisWrapper "pixels" Return)))
          (mkState (mkLazyExecute the_image the_file 100 false None [] [])
                   {[ the_image := image ]} {[ the_file := 100 ]} [])).
Proof.
  split; [reflexivity |].
  apply (deferred_method_runs_at_start
           demo_code None the_image the_file {[ the_image := image ]}
           {[ the_file := 100 ]} 100 _ 2 "skip" [] "parseImage" []
           ["width"; "height"]
           (Seek the_file 777 (GetMember ThisWrapper "pixels" Return)));
    reflexivity.
Defined.

(** ** Exempt names *)

Lemma exempt_read code g n s o m :
  target s = Some o ->
  includes (passthru (self s)) m = true ->
  wrapper_get code g n m s = Ok (obj_get o m) s.
Proof.
  intros Ho Hm. rewrite wrapper_get_forwards by (right; exact Hm).
  unfold member. unfold target in Ho. rewrite Ho. reflexivity.
Qed.

(** C7.  While nothing else has been accessed, reading exempt members
    through the wrapper any number of times gives the target's members and
    leaves the whole state as it was: no invocation of the deferred method,
    the flag still false, the stream where it stood.  A name is exempt
    exactly when it is equal to a name in the list, and [ignore] adds its
    arguments to that list. *)
Theorem exempt_reads_never_load code g n s o names :
  loaded (self s) = false ->
  target s = Some o ->
  names ⊆ passthru (self s) ->
  wrapper_get_all code g n names s = Ok (map (obj_get o) names) s /\
  (forall l m, includes l m = true <-> m ∈ l) /\
  (forall extra, exists s',
      ignore extra s = Ok tt s' /\
      forall m, includes (passthru (self s')) m = true <->
                m ∈ passthru (self s) \/ m ∈ extra).
Proof.
  intros _ Ho Hex. split; [| split].
  - induction names as [|m names IH]; simpl; [reflexivity |].
    unfold bind at 1.
    rewrite (exempt_read code g n s o m Ho)
      by (apply includes_elem_of, Hex; left).
    unfold bind at 1. rewrite IH; [reflexivity |].
    intros m' Hm'. apply Hex. right. exact Hm'.
  - apply includes_elem_of.
  - intros extra. eexists. split; [reflexivity |]. intros m. simpl.
    rewrite includes_elem_of. apply elem_of_app.
Qed.

Lemma exempt_reads_never_load_witness :
  loaded (self demo_world) = false /\
  target demo_world = Some image /\
  wrapper_get_all demo_code None 0 ["width"; "height"; "width"] demo_world
  = Ok [VNum 640; VNum 480; VNum 640] demo_world.
Proof.
  split; [reflexivity |]. split; [reflexivity |].
  refine (proj1 (exempt_reads_never_load demo_code None 0 demo_world image
                   ["width"; "height"; "width"] eq_refl eq_refl _)).
  apply (bool_decide_unpack _). vm_compute. exact I.
Defined.

(** ** Names that are not exempt *)

Lemma target_after_method code g n f r args s v s2 :
  invoke code g n f r args (begin_load s) = Ok v s2 ->
  is_Some (target s) -> is_Some (target s2).
Proof.
  intros Hi Ht.
  pose proof (invoke_evolves code g n f r args (begin_load s)) as He.
  rewrite Hi in He. simpl in He. destruct He as [(Ho & _) _ _ Hos _].
  unfold target. rewrite Ho. apply Hos. exact Ht.
Qed.




(** ** When the flag is set *)

Lemma method_is_quiet code g n f l args s :
  no_captured_wrapper code ->
  ends (fun s2 => self s2 = self s /\ calls s2 = calls (begin_load s))
       (invoke code g n f (ThisObj l) args (begin_load s)).
Proof.
  intros Hc. eapply ends_impl;
    [| apply (invoke_quiet code g n f (ThisObj l) args Hc); discriminate].
  intros s2 [Hs Hcs]. split; assumption.
Qed.

(** C1, as the code has it.  [load] sets the flag after the deferred
    method has returned and the stream has been put back, not before: every
    invocation it makes sees the flag false.  The method runs with the
    target itself as [this], so what it reads and calls on [this] does not
    go through the wrapper; when no function holds a reference to the
    wrapper, the method is invoked once, nothing it does touches the
    instance, and the flag is true once [load] has returned. *)
Theorem load_sets_flag_last code g n s p o f :
  position s = Some p ->
  target s = Some o ->
  obj_get o (key_of (loadMethod (self s))) = VFun f ->
  (forall m q s0,
      ends (fun s' => exists l, calls s' = calls s0 ++ l /\
                                Forall (fun c => call_loaded c = false) l)
           (run code g m q s0)) /\
  (no_captured_wrapper code ->
   match invoke code g n f (ThisObj (obj (self s))) (loadArgs (self s))
                (begin_load s) with
   | Ok _ s2 =>
       self s2 = self s /\
       calls s2 = calls s ++ [mkCall (key_of (loadMethod (self s)))
                                     (loadArgs (self s))
                                     (Some (startPos (self s)))
                                     (loaded (self s))] /\
       lazy_load code g n s = Ok tt (end_load p s2) /\
       loaded (self (end_load p s2)) = true
   | Thrown e s2 =>
       self s2 = self s /\
       calls s2 = calls s ++ [mkCall (key_of (loadMethod (self s)))
                                     (loadArgs (self s))
                                     (Some (startPos (self s)))
                                     (loaded (self s))] /\
       lazy_load code g n s = Thrown e s2
   | OutOfFuel => lazy_load code g n s = OutOfFuel
   end).
Proof.
  intros Hp Ho Hf. split.
  - intros m q s0. eapply ends_impl; [| apply run_evolves].
    intros s' [_ _ _ _ (l & E & Hl & _)]. exists l. split; [exact E |].
    eapply Forall_impl; [exact Hl |]. intros c (_ & _ & _ & Hc). exact Hc.
  - intros Hc.
    pose proof (method_is_quiet code g n f (obj (self s))
                  (loadArgs (self s)) s Hc) as Hq.
    destruct (invoke _ _ _ _ _ _ _) as [v s2|e s2|] eqn:Hi; simpl in Hq.
    + destruct Hq as [Hs Hcs]. repeat split; try assumption.
      eapply load_returns; eassumption.
    + destruct Hq as [Hs Hcs]. repeat split; try assumption.
      eapply load_throws; eassumption.
    + rewrite lazy_load_cases. unfold load_cases.
      rewrite Hp, Ho. simpl. rewrite Hf, Hi. reflexivity.
Qed.

Lemma load_sets_flag_last_witness :
  position demo_world = Some 500 /\
  target demo_world = Some image /\
  exists s',
    lazy_load demo_code None 1 demo_world = Ok tt s' /\
    calls s' = [mkCall "parseImage" [] (Some 100) false] /\
    loaded (self s') = true.
Proof.
  split; [reflexivity |]. split; [reflexivity |].
  destruct (load_sets_flag_last demo_code None 1 demo_world 500 image
              "parseImage" eq_refl eq_refl eq_refl) as [_ H].
  specialize (H demo_code_no_captured_wrapper).
  destruct (invoke demo_code None 1 "parseImage" _ _ _) as [v s2|e s2|] eqn:Hi;
    [| vm_compute in Hi; discriminate | vm_compute in Hi; discriminate].
  destruct H as (_ & Hcalls & Hload & Hflag).
  exists (end_load 500 s2). repeat split; assumption.
Defined.

(** The claim C1 fails as stated: here the deferred method reads a member
    through the wrapper while it runs; the flag is still false then, so the
    load is triggered again, and the one access ends with two invocations,
    each of which saw the flag false. *)
Lemma reentrant_access_loads_again :
  exists v s',
    wrapper_get reentrant_code None 2 "pixels" reentrant_world = Ok v s' /\
    map call_loaded (calls s') = [false; false].
Proof. do 2 eexists. vm_compute. split; reflexivity. Qed.

(** ** At most one load *)

(** C6, as the code has it.  When no function holds a reference to the
    wrapper and the deferred method returns, the first access to a name
    that is not exempt returns after exactly one invocation of the method
    and with the flag set; from then on no client program, whatever it
    accesses, causes another invocation. *)
Theorem first_access_loads_once code g n s name p o f v0 s2 :
  no_captured_wrapper code ->
  loaded (self s) = false ->
  includes (passthru (self s)) name = false ->
  position s = Some p ->
  target s = Some o ->
  obj_get o (key_of (loadMethod (self s))) = VFun f ->
  invoke code g n f (ThisObj (obj (self s))) (loadArgs (self s))
         (begin_load s) = Ok v0 s2 ->
  exists v s',
    wrapper_get code g n name s = Ok v s' /\
    calls s' = calls s ++ [mkCall (key_of (loadMethod (self s)))
                                  (loadArgs (self s))
                                  (Some (startPos (self s))) false] /\
    loaded (self s') = true /\
    forall m q,
      ends (fun s3 => calls s3 = calls s' /\ loaded (self s3) = true)
           (run code g m q s').
Proof.
  intros Hc Hl Hx Hp Ho Hf Hi.
  pose proof (method_is_quiet code g n f (obj (self s))
                (loadArgs (self s)) s Hc) as Hq.
  rewrite Hi in Hq. simpl in Hq. destruct Hq as [_ Hcs]. rewrite Hl in Hcs.
  destruct (target_after_method _ _ _ _ _ _ _ _ _ Hi) as [o' Ho'];
    [rewrite Ho; eauto |].
  exists (obj_get o' name), (end_load p s2). split; [| split; [| split]].
  - rewrite wrapper_get_loads by assumption. unfold bind at 1.
    rewrite (load_returns code g n s p o f v0 s2) by assumption.
    unfold bind, this, member.
    change (objs (end_load p s2) !! obj (self (end_load p s2)))
      with (target s2).
    rewrite Ho'. reflexivity.
  - exact Hcs.
  - reflexivity.
  - intros m q. apply loaded_is_final. reflexivity.
Qed.

Lemma first_access_loads_once_witness :
  exists v s',
    wrapper_get demo_code None 1 "pixels" demo_world = Ok v s' /\
    calls s' = [mkCall "parseImage" [] (Some 100) false] /\
    loaded (self s') = true /\
    forall m q,
      ends (fun s3 => calls s3 = calls s' /\ loaded (self s3) = true)
           (run demo_code None m q s').
Proof.
  eapply (first_access_loads_once demo_code None 1 demo_world "pixels" 500
            image "parseImage");
    first [exact demo_code_no_captured_wrapper | vm_compute; reflexivity].
Defined.

(** The claim C6 fails as stated.  When the deferred method throws, the
    flag stays false and the next access invokes it again; when the method
    reads through the wrapper, the first access invokes it twice. *)
Lemma second_access_invokes_again :
  (exists e s1,
      wrapper_get demo_code None 1 "pixels" failing_world = Thrown e s1 /\
      length (calls s1) = 1%nat /\
      exists e' s2,
        wrapper_get demo_code None 1 "data" s1 = Thrown e' s2 /\
        length (calls s2) = 2%nat) /\
  (exists v s',
      wrapper_get reentrant_code None 2 "pixels" reentrant_world = Ok v s' /\
      length (calls s') = 2%nat).
Proof.
  split.
  - do 2 eexists. split; [vm_compute; reflexivity |].
    split; [reflexivity |].
    do 2 eexists. split; [vm_compute; reflexivity | reflexivity].
  - do 2 eexists. split; [vm_compute; reflexivity | reflexivity].
Qed.

(** ** A deferred method that throws *)

(** C2, as the code has it.  When the deferred method throws, the access
    that triggered the load throws the same exception, and [load] does
    nothing more: the state is the one the method left, with the stream
    where the method left it; the flag is still false (no function holding
    a reference to the wrapper), so the next access to a name that is not
    exempt runs [load] again. *)
Theorem failed_load_is_abandoned code g n s name p o f e s2 :
  no_captured_wrapper code ->
  loaded (self s) = false ->
  includes (passthru (self s)) name = false ->
  position s = Some p ->
  target s = Some o ->
  obj_get o (key_of (loadMethod (self s))) = VFun f ->
  invoke code g n f (ThisObj (obj (self s))) (loadArgs (self s))
         (begin_load s) = Thrown e s2 ->
  wrapper_get code g n name s = Thrown e s2 /\
  loaded (self s2) = false /\
  forall m name',
    includes (passthru (self s)) name' = false ->
    wrapper_get code g m name' s2 =
    (lazy_load code g m ;;; let* b := this in member (obj b) name') s2.
Proof.
  intros Hc Hl Hx Hp Ho Hf Hi.
  pose proof (method_is_quiet code g n f (obj (self s))
                (loadArgs (self s)) s Hc) as Hq.
  rewrite Hi in Hq. simpl in Hq. destruct Hq as [Hs _].
  split; [| split].
  - rewrite wrapper_get_loads by assumption. unfold bind at 1.
    rewrite (load_throws code g n s p o f e s2) by assumption.
    reflexivity.
  - rewrite Hs. exact Hl.
  - intros m name' Hx'. apply wrapper_get_loads; rewrite Hs; assumption.
Qed.

Lemma failed_load_is_abandoned_witness :
  exists s2,
    wrapper_get demo_code None 1 "pixels" failing_world
    = Thrown (UserError (VStr "bad data")) s2 /\
    loaded (self s2) = false.
Proof.
  eexists.
  refine (let H := failed_load_is_abandoned demo_code None 1 failing_world
                     "pixels" 500 image "parseFail"
                     (UserError (VStr "bad data")) _
                     demo_code_no_captured_wrapper eq_refl eq_refl eq_refl
                     eq_refl eq_refl _ in
          conj (proj1 H) (proj1 (proj2 H))).
  vm_compute. reflexivity.
Defined.

(** The claim C2 fails as stated: after the exception the flag is false,
    the stream stands where the deferred method left it and not where it
    stood before the access, and the next access invokes the method
    again. *)
Lemma failed_load_leaves_stream_and_flag :
  position failing_world = Some 500 /\
  exists e s1,
    wrapper_get demo_code None 1 "pixels" failing_world = Thrown e s1 /\
    loaded (self s1) = false /\
    position s1 = Some 130 /\
    map call_key (calls s1) = ["parseFail"] /\
    exists e' s2,
      wrapper_get demo_code None 1 "pixels" s1 = Thrown e' s2 /\
      map call_key (calls s2) = ["parseFail"; "parseFail"].
Proof.
  split; [reflexivity |].
  do 2 eexists. split; [vm_compute; reflexivity |].
  repeat (split; [reflexivity |]).
  do 2 eexists. split; [vm_compute; reflexivity | reflexivity].
Qed.

(** ** No deferred method registered *)

(** C8, as the code has it.  When [later] was never called, [load] looks up
    the member named ["null"]; the target having no such function, the
    first access to a name that is not exempt throws a TypeError after the
    stream was moved to the start position, the flag stays false and no
    invocation is made; every later access to such a name throws in the
    same way. *)
Theorem load_without_later_throws code g n s name p o :
  loadMethod (self s) = None ->
  loaded (self s) = false ->
  includes (passthru (self s)) name = false ->
  position s = Some p ->
  target s = Some o ->
  (forall f, obj_get o "null" <> VFun f) ->
  let s1 :=
    with_files (<[file (self s) := startPos (self s)]> (files s)) s in
  wrapper_get code g n name s = Thrown TypeError s1 /\
  loaded (self s1) = false /\
  calls s1 = calls s /\
  forall m name',
    includes (passthru (self s)) name' = false ->
    wrapper_get code g m name' s1 = Thrown TypeError s1.
Proof.
  intros Hm Hl Hx Hp Ho Hnull s1.
  assert (forall m name' s0,
             self s0 = self s -> target s0 = Some o -> is_Some (position s0) ->
             includes (passthru (self s)) name' = false ->
             wrapper_get code g m name' s0 =
             Thrown TypeError
               (with_files (<[file (self s0) := startPos (self s0)]>
                              (files s0)) s0)) as H.
  { intros m name' s0 Hs0 Ho0 [p0 Hp0] Hx'.
    rewrite wrapper_get_loads by (rewrite Hs0; assumption).
    unfold bind at 1. rewrite lazy_load_cases. unfold load_cases.
    rewrite Hp0, Ho0. simpl. rewrite Hs0, Hm. simpl.
    specialize (Hnull) as Hn.
    destruct (obj_get o "null") eqn:Hv; try reflexivity.
    exfalso. eapply Hn. reflexivity. }
  split; [| split; [| split]].
  - apply H; eauto.
  - exact Hl.
  - reflexivity.
  - intros m name' Hx'. rewrite (H m name' s1); eauto.
    + unfold s1, with_files. simpl. rewrite insert_insert_eq. reflexivity.
    + unfold position, s1. simpl. rewrite lookup_insert_eq. eauto.
Qed.

Lemma load_without_later_throws_witness :
  wrapper_get demo_code None 1 "pixels" unconfigured_world
  = Thrown TypeError
      (with_files {[ the_file := 100 ]} unconfigured_world).
Proof.
  refine (eq_trans
            (proj1 (load_without_later_throws demo_code None 1
                      unconfigured_world "pixels" 500 image
                      eq_refl eq_refl eq_refl eq_refl eq_refl _))
            _).
  - intros f. vm_compute. discriminate.
  - vm_compute. reflexivity.
Defined.

(** The claim C8 fails as stated: without a registered method the first
    access does not mark the instance loaded; it throws, and so does the
    next one. *)
Lemma unconfigured_access_throws :
  exists s1,
    wrapper_get demo_code None 1 "pixels" unconfigured_world
    = Thrown TypeError s1 /\
    loaded (self s1) = false /\
    wrapper_get demo_code None 1 "pixels" s1 = Thrown TypeError s1.
Proof.
  eexists. split; [vm_compute; reflexivity |].
  split; [reflexivity | vm_compute; reflexivity].
Qed.

(** ** Calls *)

(** A method call [wrapper.name(args)] is a read of [name] through the
    [get] trap followed by a call of what was read. *)
Lemma member_call_goes_through_get code g n name args s :
  run code g n (CallMember ThisWrapper name args Return) s =
  (let* fv := wrapper_get code g n name in
   apply_value (invoke code g n) fv ThisWrapper args) s.
Proof.
  unfold run, CallMember, wrapper_get. simpl. unfold bind.
  destruct (proxy_get (invoke code g n) name s) as [fv s1|e s1|];
    try reflexivity.
  destruct (apply_value (invoke code g n) fv ThisWrapper args s1);
    reflexivity.
Qed.

(** Whatever the target returns, the [apply] trap returns [undefined]. *)
Lemma apply_trap_returns_undefined code g n r args s v s' :
  wrapper_apply code g n r args s = Ok v s' -> v = VUndef.
Proof.
  unfold wrapper_apply, get, trap_apply, proxy_apply, bind.
  destruct (target_code s) as [f s1|e s1|]; try discriminate.
  unfold this.
  destruct (if negb (loaded (self s1)) then _ else _) as [[] s2|e s2|];
    try discriminate.
  destruct (invoke code g n f r args s2) as [v1 s3|e s3|]; try discriminate.
  unfold ret. intros [= <- _]. reflexivity.
Qed.


(** * Further properties of the class *)

(** ** The eager step *)

(** X1.  [now] with a name that is not a function of the target throws a
    TypeError and changes nothing. *)
Theorem now_not_a_function code g n s o method args :
  target s = Some o ->
  (forall f, obj_get o method <> VFun f) ->
  now (invoke code g n) method args s = Thrown TypeError s.
Proof.
  intros Ho Hm. unfold now, bind, this, member.
  unfold target in Ho. rewrite Ho.
  destruct (obj_get o method) eqn:Hv; try reflexivity.
  exfalso. eapply Hm. reflexivity.
Qed.

Lemma now_not_a_function_witness :
  now (invoke demo_code None 1) "width" [] fresh_world
  = Thrown TypeError fresh_world.
Proof.
  apply (now_not_a_function demo_code None 1 fresh_world image "width" []).
  - reflexivity.
  - intros f. vm_compute. discriminate.
Defined.

(** X2.  [now] runs the named function at once, with the target as [this]
    and the given arguments, and returns when it returns, in the state it
    left.  It is not a load: no function holding a reference to the
    wrapper, the instance (flag, start position, registered method, exempt
    list) is as before and no invocation of the deferred method is
    counted. *)
Theorem now_runs_the_method_only code g n s o method f args v s' :
  no_captured_wrapper code ->
  target s = Some o ->
  obj_get o method = VFun f ->
  invoke code g n f (ThisObj (obj (self s))) args s = Ok v s' ->
  now (invoke code g n) method args s = Ok tt s' /\
  self s' = self s /\ calls s' = calls s.
Proof.
  intros Hc Ho Hf Hi. split.
  - unfold now, bind, this, member. unfold target in Ho.
    rewrite Ho, Hf. simpl. rewrite Hi. reflexivity.
  - pose proof (invoke_quiet code g n f (ThisObj (obj (self s))) args Hc
                  ltac:(discriminate) s) as Hq.
    rewrite Hi in Hq. exact Hq.
Qed.

Lemma now_runs_the_method_only_witness :
  exists s',
    now (invoke demo_code None 1) "skip" [] fresh_world = Ok tt s' /\
    self s' = self fresh_world /\ calls s' = calls fresh_world.
Proof.
  eexists.
  apply (now_runs_the_method_only demo_code None 1 fresh_world image "skip"
           "skip" [] VUndef);
    first [exact demo_code_no_captured_wrapper | vm_compute; reflexivity].
Defined.

(** ** Configuration *)

Lemma first_access_returns code g n s name p o f v0 s2 o' :
  loaded (self s) = false ->
  includes (passthru (self s)) name = false ->
  position s = Some p ->
  target s = Some o ->
  obj_get o (key_of (loadMethod (self s))) = VFun f ->
  invoke code g n f (ThisObj (obj (self s))) (loadArgs (self s))
         (begin_load s) = Ok v0 s2 ->
  target s2 = Some o' ->
  wrapper_get code g n name s = Ok (obj_get o' name) (end_load p s2).
Proof.
  intros Hl Hx Hp Ho Hf Hi Ho'.
  rewrite wrapper_get_loads by assumption. unfold bind at 1.
  rewrite (load_returns code g n s p o f v0 s2) by assumption.
  unfold bind, this, member.
  change (objs (end_load p s2) !! obj (self (end_load p s2)))
    with (target s2).
  rewrite Ho'. reflexivity.
Qed.

(** X3.  [later] only stores, and of two registrations the last one
    stands: the first access that is not exempt runs the function the
    target has under the second name, with the second arguments, and the
    first registration leaves no trace. *)
Theorem last_registration_is_loaded
        code g n s m1 a1 m2 a2 name p o f v0 s2 :
  loaded (self s) = false ->
  includes (passthru (self s)) name = false ->
  position s = Some p ->
  target s = Some o ->
  obj_get o m2 = VFun f ->
  invoke code g n f (ThisObj (obj (self s))) a2
         (begin_load (with_self (set_later m2 a2 (self s)) s)) = Ok v0 s2 ->
  (later m1 a1 ;;; later m2 a2) s = later m2 a2 s /\
  exists o',
    target s2 = Some o' /\
    (later m1 a1 ;;; later m2 a2 ;;; wrapper_get code g n name) s =
    Ok (obj_get o' name) (end_load p s2).
Proof.
  intros Hl Hx Hp Ho Hf Hi. split; [reflexivity |].
  set (s0 := with_self (set_later m2 a2 (self s)) s) in *.
  destruct (target_after_method code g n f (ThisObj (obj (self s))) a2
              s0 v0 s2 Hi) as [o' Ho']; [exists o; exact Ho |].
  exists o'. split; [exact Ho' |].
  change ((later m1 a1 ;;; later m2 a2 ;;; wrapper_get code g n name) s)
    with (wrapper_get code g n name s0).
  apply (first_access_returns code g n s0 name p o f v0 s2 o');
    assumption.
Qed.

Lemma last_registration_is_loaded_witness :
  exists s',
    (later "parseFail" [VNum 1] ;;; later "parseImage" [] ;;;
     wrapper_get demo_code None 1 "pixels") fresh_world
    = Ok (VFun "pixels") s' /\
    calls s' = [mkCall "parseImage" [] (Some 100) false].
Proof.
  destruct (last_registration_is_loaded demo_code None 1 fresh_world
              "parseFail" [VNum 1] "parseImage" [] "pixels" 100 image
              "parseImage" VUndef
              (with_objs {[ the_image := obj_set image "data" (VNum 100) ]}
                 (with_files {[ the_file := 400 ]}
                    (begin_load
                       (with_self (set_later "parseImage" []
                                             (self fresh_world))
                                  fresh_world)))))
    as (_ & o' & Ho' & Hget); try (vm_compute; reflexivity).
  eexists. split.
  - rewrite Hget. vm_compute in Ho'. injection Ho' as <-.
    vm_compute. reflexivity.
  - reflexivity.
Defined.

(** X4.  [ignore] appends: after two calls a name is exempt exactly when it
    was exempt before or is among the arguments of either call; the list
    keeps duplicates (its length grows by the number of arguments), and
    naming a name twice exempts nothing more. *)
Theorem ignore_accumulates a b s :
  exists s',
    (ignore a ;;; ignore b) s = Ok tt s' /\
    (forall m, includes (passthru (self s')) m =
               includes (passthru (self s)) m || includes a m
               || includes b m) /\
    length (passthru (self s')) =
    (length (passthru (self s)) + length a + length b)%nat /\
    (forall m, includes ((passthru (self s) ++ a) ++ a) m =
               includes (passthru (self s) ++ a) m).
Proof.
  eexists. split; [reflexivity |]. simpl. split; [| split].
  - intros m. rewrite !includes_app. reflexivity.
  - rewrite !length_app. reflexivity.
  - intros m. rewrite !includes_app.
    destruct (includes (passthru (self s)) m), (includes a m); reflexivity.
Qed.

(** X5.  The traps read the exempt list at each access, so an [ignore]
    issued after the wrapper was handed out is honoured: the named member
    is then read without loading. *)
Theorem late_ignore_is_honoured code g n s o extra name :
  target s = Some o ->
  name ∈ extra ->
  (ignore extra ;;; wrapper_get code g n name) s =
  Ok (obj_get o name)
     (with_self (set_passthru (passthru (self s) ++ extra) (self s)) s).
Proof.
  intros Ho Hn. unfold bind at 1. unfold ignore, modify_this.
  apply exempt_read; [exact Ho |]. simpl.
  rewrite includes_app. apply orb_true_iff. right.
  apply includes_elem_of. exact Hn.
Qed.

Lemma late_ignore_is_honoured_witness :
  (ignore ["pixels"] ;;; wrapper_get demo_code None 0 "pixels") demo_world
  = Ok (VFun "pixels")
       (with_self (set_passthru ["width"; "height"; "pixels"]
                                (self demo_world)) demo_world).
Proof.
  apply (late_ignore_is_honoured demo_code None 0 demo_world image
           ["pixels"] "pixels").
  - reflexivity.
  - apply (bool_decide_unpack _). vm_compute. exact I.
Defined.

(** ** Reads and writes through the wrapper *)

(** X6.  Once the flag is set the [get] trap only forwards: any sequence
    of reads through the wrapper, exempt or not, gives the target's members
    and leaves the whole state, the stream included, as it was. *)
Theorem loaded_reads_forward code g n s o names :
  loaded (self s) = true ->
  target s = Some o ->
  wrapper_get_all code g n names s = Ok (map (obj_get o) names) s.
Proof.
  intros Hl Ho.
  induction names as [|m names IH]; simpl; [reflexivity |].
  unfold bind at 1.
  rewrite wrapper_get_forwards by (left; exact Hl).
  unfold member. unfold target in Ho. rewrite Ho.
  unfold bind at 1. rewrite IH. reflexivity.
Qed.

Lemma loaded_reads_forward_witness :
  wrapper_get_all demo_code None 0 ["pixels"; "nothing"; "width"]
                  (with_self (set_loaded true (self demo_world)) demo_world)
  = Ok [VFun "pixels"; VUndef; VNum 640]
       (with_self (set_loaded true (self demo_world)) demo_world).
Proof.
  refine (eq_trans
            (loaded_reads_forward demo_code None 0
               (with_self (set_loaded true (self demo_world)) demo_world)
               image ["pixels"; "nothing"; "width"] eq_refl eq_refl) _).
  vm_compute. reflexivity.
Defined.

(** X7.  The proxy has no [set] trap.  A write through the wrapper goes
    to the target and never loads, whatever the name and the flag: the
    instance, the stream and the count of invocations are as before.  Read
    back through the wrapper, an exempt name (or any name once loaded)
    gives the value written. *)
Theorem write_through_wrapper_never_loads code g n s o name v :
  target s = Some o ->
  let s' :=
    with_objs (<[obj (self s) := obj_set o name v]> (objs s)) s in
  run code g n (SetMember ThisWrapper name v (Return VUndef)) s
  = Ok VUndef s' /\
  (loaded (self s) = true \/ includes (passthru (self s)) name = true ->
   run code g n
       (SetMember ThisWrapper name v (GetMember ThisWrapper name Return)) s
   = Ok v s').
Proof.
  intros Ho s'. unfold target in Ho.
  assert (write_member ThisWrapper name v s = Ok tt s') as Hw.
  { unfold write_member, bind, this, set_member. rewrite Ho. reflexivity. }
  split.
  - change (bind (write_member ThisWrapper name v)
                 (fun _ => ret VUndef) s = Ok VUndef s').
    unfold bind. rewrite Hw. reflexivity.
  - intros Hx.
    change (bind (write_member ThisWrapper name v)
                 (fun _ => bind (wrapper_get code g n name)
                                (fun x => ret x)) s = Ok v s').
    unfold bind at 1. rewrite Hw. unfold bind.
    rewrite wrapper_get_forwards by exact Hx.
    unfold member, s'. simpl. rewrite lookup_insert_eq.
    unfold obj_get, obj_set. simpl. rewrite lookup_insert_eq. reflexivity.
Qed.

Lemma write_through_wrapper_never_loads_witness :
  run demo_code None 0
      (SetMember ThisWrapper "width" (VNum 1)
                 (GetMember ThisWrapper "width" Return)) demo_world
  = Ok (VNum 1)
       (with_objs {[ the_image := obj_set image "width" (VNum 1) ]}
                  demo_world).
Proof.
  refine (eq_trans
            (proj2 (write_through_wrapper_never_loads demo_code None 0
                      demo_world image "width" (VNum 1) eq_refl)
                   (or_intror eq_refl)) _).
  vm_compute. reflexivity.
Defined.

(** ** A registered name that is not a function *)

(** X8.  When the target has no function under the registered name, the
    first access that is not exempt throws a TypeError from [load]: by then
    the stream has been moved to the start position and it is not put
    back; the flag stays false and nothing is invoked. *)
Theorem load_of_missing_method_throws code g n s name p o :
  loaded (self s) = false ->
  includes (passthru (self s)) name = false ->
  position s = Some p ->
  target s = Some o ->
  (forall f, obj_get o (key_of (loadMethod (self s))) <> VFun f) ->
  wrapper_get code g n name s =
  Thrown TypeError
         (with_files (<[file (self s) := startPos (self s)]> (files s)) s).
Proof.
  intros Hl Hx Hp Ho Hm.
  rewrite wrapper_get_loads by assumption.
  unfold bind at 1. rewrite lazy_load_cases. unfold load_cases.
  rewrite Hp, Ho. simpl.
  destruct (obj_get o (key_of (loadMethod (self s)))) eqn:Hv;
    try reflexivity.
  exfalso. eapply Hm. reflexivity.
Qed.

Lemma load_of_missing_method_throws_witness :
  wrapper_get demo_code None 1 "pixels" (configured (Some "width"))
  = Thrown TypeError
           (with_files {[ the_file := 100 ]} (configured (Some "width"))).
Proof.
  refine (eq_trans
            (load_of_missing_method_throws demo_code None 1
               (configured (Some "width")) "pixels" 500 image
               eq_refl eq_refl eq_refl eq_refl _) _).
  - intros f. vm_compute. discriminate.
  - vm_compute. reflexivity.
Defined.

(** ** Re-entrant reads *)

Section Reentrant.

Variable code : code_table.
Variable g : option value.
Variable b : LazyExecute.
Variable o : object.
Variable f : fn_id.
Variable name : string.
Variable k : value -> prog.

Hypothesis b_unloaded : loaded b = false.
Hypothesis name_not_exempt : includes (passthru b) name = false.
Hypothesis method_is_f : obj_get o (key_of (loadMethod b)) = VFun f.
Hypothesis f_reads_wrapper :
  code f (ThisObj (obj b)) (loadArgs b) = GetMember ThisWrapper name k.

Lemma reentrant_load_is_cut n :
  forall s,
    self s = b -> target s = Some o -> is_Some (position s) ->
    lazy_load code g n s = OutOfFuel.
Proof.
  induction n as [|n IH]; intros s Hb Ho [p Hp];
    rewrite lazy_load_cases; unfold load_cases;
    rewrite Hp, Ho; cbv beta zeta; rewrite Hb, method_is_f.
  - reflexivity.
  - change (invoke code g (S n) f (ThisObj (obj b)) (loadArgs b))
      with (interp (invoke code g n) g
                   (code f (ThisObj (obj b)) (loadArgs b))).
    rewrite f_reads_wrapper.
    change (interp (invoke code g n) g (GetMember ThisWrapper name k))
      with (bind (wrapper_get code g n name)
                 (fun v => interp (invoke code g n) g (k v))).
    unfold bind at 1.
    rewrite wrapper_get_loads
      by (change (self (begin_load s)) with (self s); rewrite Hb;
          assumption).
    unfold bind at 1. rewrite IH; [reflexivity | exact Hb | exact Ho |].
    unfold position. simpl. rewrite lookup_insert_eq. eauto.
Qed.

End Reentrant.

(** X9.  A deferred method whose first step is to read, through the
    wrapper, a member that is not exempt never gets further: the flag is
    still false, so the read runs [load], which runs the method, and so
    on.  No call depth is enough for the access that triggered it. *)
Theorem unguarded_reentrancy_never_returns code g s o f name k name0 :
  loaded (self s) = false ->
  includes (passthru (self s)) name = false ->
  includes (passthru (self s)) name0 = false ->
  is_Some (position s) ->
  target s = Some o ->
  obj_get o (key_of (loadMethod (self s))) = VFun f ->
  code f (ThisObj (obj (self s))) (loadArgs (self s))
  = GetMember ThisWrapper name k ->
  forall n, wrapper_get code g n name0 s = OutOfFuel.
Proof.
  intros Hl Hx Hx0 Hp Ho Hf Hc n.
  rewrite wrapper_get_loads by assumption. unfold bind at 1.
  rewrite (reentrant_load_is_cut code g (self s) o f name k Hl Hx Hf Hc n s);
    auto.
Qed.

Lemma unguarded_reentrancy_never_returns_witness :
  wrapper_get looping_code None 40 "data" reentrant_world = OutOfFuel.
Proof.
  apply (unguarded_reentrancy_never_returns looping_code None
           reentrant_world image "parseAgain" "pixels"
           (fun _ => Return VUndef) "data");
    first [reflexivity | (eexists; reflexivity)].
Defined.

(** ** The two ways to call *)

(** X10.  On a loaded instance the [apply] trap runs the target's code
    with the receiver and the arguments it was given, with the same effects
    and the same exceptions as a direct call; only the result is replaced
    by [undefined]. *)
Theorem apply_trap_drops_result_only code g n r args s fs f :
  loaded (self s) = true ->
  target s = Some (mkObject fs (Some f)) ->
  wrapper_apply code g n r args s =
  match invoke code g n f r args s with
  | Ok _ s' => Ok VUndef s'
  | Thrown e s' => Thrown e s'
  | OutOfFuel => OutOfFuel
  end.
Proof.
  intros Hl Ho. unfold target in Ho.
  unfold wrapper_apply, get, trap_apply, proxy_apply, bind, target_code, this.
  rewrite Ho, Hl. simpl.
  destruct (invoke code g n f r args s); reflexivity.
Qed.

Lemma apply_trap_drops_result_only_witness :
  wrapper_apply demo_code None 1 ThisUndef [VNum 3] (function_world true)
  = Ok VUndef (function_world true).
Proof.
  refine (eq_trans
            (apply_trap_drops_result_only demo_code None 1 ThisUndef
               [VNum 3] (function_world true) ∅ "render" eq_refl eq_refl)
            _).
  vm_compute. reflexivity.
Defined.

(** X11.  Before loading, whether the [apply] trap loads does not depend
    on the call: it depends on what the identifier [name] is bound to
    outside.  Nothing bound: a ReferenceError, and neither the deferred
    method nor the target runs.  Bound to an exempt name: the target runs
    without loading.  Bound to anything else: [load] runs first. *)
Theorem apply_trap_checks_a_global code n r args s fs f :
  loaded (self s) = false ->
  target s = Some (mkObject fs (Some f)) ->
  wrapper_apply code None n r args s = Thrown ReferenceError s /\
  (forall v,
      includes_value (passthru (self s)) v = true ->
      wrapper_apply code (Some v) n r args s =
      (invoke code (Some v) n f r args ;;; ret VUndef) s) /\
  (forall v,
      includes_value (passthru (self s)) v = false ->
      wrapper_apply code (Some v) n r args s =
      (lazy_load code (Some v) n ;;;
       invoke code (Some v) n f r args ;;; ret VUndef) s).
Proof.
  intros Hl Ho. unfold target in Ho.
  assert (forall g,
             wrapper_apply code g n r args s =
             (match g with
              | None => throw ReferenceError
              | Some v =>
                  if negb (includes_value (passthru (self s)) v)
                  then lazy_load code g n else ret tt
              end ;;; invoke code g n f r args ;;; ret VUndef) s) as H.
  { intros g.
    unfold wrapper_apply, get, trap_apply, proxy_apply.
    unfold bind at 1. unfold target_code. rewrite Ho.
    unfold bind at 1. unfold this at 1. cbv beta. rewrite Hl.
    reflexivity. }
  split; [| split].
  - rewrite H. reflexivity.
  - intros v Hv. rewrite H, Hv. reflexivity.
  - intros v Hv. rewrite H, Hv. reflexivity.
Qed.

Lemma apply_trap_checks_a_global_witness :
  wrapper_apply demo_code None 1 ThisUndef [] (function_world false)
  = Thrown ReferenceError (function_world false).
Proof.
  apply (proj1 (apply_trap_checks_a_global demo_code 1 ThisUndef []
                  (function_world false) ∅ "render" eq_refl eq_refl)).
Defined.

(** X12.  A method call [wrapper.name(args)] on a loaded instance, or of
    an exempt name, is the call of the target's function with the wrapper
    as [this]: same effects, and the result is handed to the caller. *)
Theorem member_call_returns_result code g n s o name f args :
  target s = Some o ->
  obj_get o name = VFun f ->
  loaded (self s) = true \/ includes (passthru (self s)) name = true ->
  run code g n (CallMember ThisWrapper name args Return) s =
  invoke code g n f ThisWrapper args s.
Proof.
  intros Ho Hf Hx. rewrite member_call_goes_through_get.
  unfold bind. rewrite wrapper_get_forwards by exact Hx.
  unfold member. unfold target in Ho. rewrite Ho, Hf. reflexivity.
Qed.

Lemma member_call_returns_result_witness :
  run demo_code None 1 (CallMember ThisWrapper "pixels" [] Return)
      (with_self (set_loaded true (self demo_world)) demo_world)
  = Ok VUndef (with_self (set_loaded true (self demo_world)) demo_world).
Proof.
  refine (eq_trans
            (member_call_returns_result demo_code None 1
               (with_self (set_loaded true (self demo_world)) demo_world)
               image "pixels" "pixels" [] eq_refl eq_refl
               (or_introl eq_refl)) _).
  vm_compute. reflexivity.
Defined.

(** ** Exempt reads from inside the deferred method *)

Lemma quiet_while_refl l s : quiet_while l s s.
Proof. intros _. apply quiet_refl. Qed.

Lemma quiet_while_trans l s1 s2 s3 :
  quiet_while l s1 s2 -> quiet_while l s2 s3 -> quiet_while l s1 s3.
Proof.
  intros H12 H23 Hl. specialize (H12 Hl).
  apply quiet_trans with s2; [exact H12 |].
  apply H23. destruct H12 as [Hs _]. rewrite Hs. exact Hl.
Qed.

Lemma respects_quiet_while {A} l (m : M A) :
  respects quiet m -> respects (quiet_while l) m.
Proof.
  intros H s. eapply ends_impl; [| apply H]. intros s' Hq _. exact Hq.
Qed.

Section ExemptReads.

Variable inv : fn_id -> receiver -> list value -> M value.
Variable global_name : option value.
Variable l : list string.
Hypothesis inv_quiet_while :
  forall f r args, r <> ThisWrapper -> respects (quiet_while l) (inv f r args).

Lemma proxy_get_quiet_while name :
  includes l name = true -> respects (quiet_while l) (proxy_get inv name).
Proof.
  intros Hx s. destruct (decide (passthru (self s) = l)) as [El|Nl].
  - unfold proxy_get. unfold bind at 1. unfold this at 1. cbv beta.
    rewrite El, Hx, andb_false_r.
    apply (respects_quiet_while l). lawful.
  - destruct (proxy_get inv name s); simpl; try exact I;
      intros El; contradiction.
Qed.

Lemma read_member_quiet_while r name :
  (r = ThisWrapper -> includes l name = true) ->
  respects (quiet_while l) (read_member inv global_name r name).
Proof.
  intros Hr. destruct r; simpl.
  - apply respects_quiet_while. lawful.
  - apply proxy_get_quiet_while. auto.
  - apply respects_quiet_while. lawful.
Qed.

Lemma apply_value_quiet_while fv r args :
  r <> ThisWrapper -> respects (quiet_while l) (apply_value inv fv r args).
Proof.
  intros Hr. destruct fv; simpl;
    try solve [apply respects_quiet_while; lawful].
  apply inv_quiet_while. exact Hr.
Qed.

Lemma interp_quiet_while p :
  exempt_only l p -> respects (quiet_while l) (interp inv global_name p).
Proof.
  induction 1; simpl;
    repeat first
      [ apply respects_bind; [apply quiet_while_trans | |]
      | apply respects_try_catch; [apply quiet_while_trans | |]
      | match goal with |- forall _, _ => intro end ];
    auto using read_member_quiet_while, apply_value_quiet_while;
    try solve [apply respects_quiet_while; lawful].
  apply respects_quiet_while. apply write_member_quiet.
Qed.

End ExemptReads.

Lemma invoke_quiet_while code g l n f r args :
  reads_exempt_only code l -> r <> ThisWrapper ->
  respects (quiet_while l) (invoke code g n f r args).
Proof.
  intros Hc. revert f r args.
  induction n as [|n IH]; intros f r args Hr; simpl.
  - intros s. exact I.
  - apply interp_quiet_while; [exact IH | apply Hc; exact Hr].
Qed.

(** X13.  The exempt list also shields reads made from inside the
    deferred method: when the functions of the target read through the
    wrapper exempt names only, the method runs once, the instance is
    untouched while it runs, and the access that triggered the load returns
    the target's member after exactly one invocation. *)
Theorem exempt_reads_do_not_reenter code g n s name p o f v0 s2 :
  reads_exempt_only code (passthru (self s)) ->
  loaded (self s) = false ->
  includes (passthru (self s)) name = false ->
  position s = Some p ->
  target s = Some o ->
  obj_get o (key_of (loadMethod (self s))) = VFun f ->
  invoke code g n f (ThisObj (obj (self s))) (loadArgs (self s))
         (begin_load s) = Ok v0 s2 ->
  exists o',
    target s2 = Some o' /\
    self s2 = self s /\
    wrapper_get code g n name s = Ok (obj_get o' name) (end_load p s2) /\
    calls (end_load p s2) =
    calls s ++ [mkCall (key_of (loadMethod (self s))) (loadArgs (self s))
                       (Some (startPos (self s))) false].
Proof.
  intros Hc Hl Hx Hp Ho Hf Hi.
  destruct (target_after_method _ _ _ _ _ _ _ _ _ Hi) as [o' Ho'];
    [rewrite Ho; eauto |].
  pose proof (invoke_quiet_while code g (passthru (self s)) n f
                (ThisObj (obj (self s))) (loadArgs (self s)) Hc
                ltac:(discriminate) (begin_load s)) as Hq.
  rewrite Hi in Hq. simpl in Hq. destruct (Hq eq_refl) as [Hs Hcs].
  exists o'. split; [exact Ho' |]. split; [exact Hs |]. split.
  - eapply first_access_returns; eassumption.
  - rewrite calls_end_load, Hcs. simpl. rewrite Hl. reflexivity.
Qed.

Lemma polite_code_reads_exempt_only :
  reads_exempt_only polite_code ["width"; "height"].
Proof.
  intros f r args Hr. unfold polite_code, demo_code.
  repeat match goal with
         | |- context [String.eqb ?a ?b] => destruct (String.eqb a b)
         end;
    repeat (constructor; auto);
    try (intros ->; contradiction).
Qed.

Lemma exempt_reads_do_not_reenter_witness :
  exists s',
    wrapper_get polite_code None 1 "data" reentrant_world
    = Ok (VNum 640) s' /\
    calls s' = [mkCall "parseAgain" [] (Some 100) false].
Proof.
  destruct (exempt_reads_do_not_reenter polite_code None 1 reentrant_world
              "data" 500 image "parseAgain" VUndef
              (with_objs {[ the_image := obj_set image "data" (VNum 640) ]}
                         (begin_load reentrant_world))
              polite_code_reads_exempt_only)
    as (o' & Ho' & _ & Hget & Hcalls); try (vm_compute; reflexivity).
  eexists. split.
  - rewrite Hget. vm_compute in Ho'. injection Ho' as <-.
    vm_compute. reflexivity.
  - exact Hcalls.
Defined.

(** ** After a failure *)

(** X14.  A load that failed is tried again by the next access that is
    not exempt, and when the deferred method then returns, that access
    completes the load.  The stream is put back where the failed attempt
    left it, which need not be where it stood before the first access. *)
Theorem retry_after_failure
        code g n s name name' p o f e s1 p1 o1 f1 v s2 :
  no_captured_wrapper code ->
  loaded (self s) = false ->
  includes (passthru (self s)) name = false ->
  includes (passthru (self s)) name' = false ->
  position s = Some p ->
  target s = Some o ->
  obj_get o (key_of (loadMethod (self s))) = VFun f ->
  invoke code g n f (ThisObj (obj (self s))) (loadArgs (self s))
         (begin_load s) = Thrown e s1 ->
  position s1 = Some p1 ->
  target s1 = Some o1 ->
  obj_get o1 (key_of (loadMethod (self s))) = VFun f1 ->
  invoke code g n f1 (ThisObj (obj (self s))) (loadArgs (self s))
         (begin_load s1) = Ok v s2 ->
  wrapper_get code g n name s = Thrown e s1 /\
  exists o2,
    target s2 = Some o2 /\
    wrapper_get code g n name' s1 = Ok (obj_get o2 name') (end_load p1 s2) /\
    position (end_load p1 s2) = Some p1 /\
    loaded (self (end_load p1 s2)) = true.
Proof.
  intros Hc Hl Hx Hx' Hp Ho Hf Hi Hp1 Ho1 Hf1 Hi1.
  pose proof (method_is_quiet code g n f (obj (self s))
                (loadArgs (self s)) s Hc) as Hq.
  rewrite Hi in Hq. simpl in Hq. destruct Hq as [Hs _].
  split.
  - rewrite wrapper_get_loads by assumption. unfold bind at 1.
    rewrite (load_throws code g n s p o f e s1) by assumption.
    reflexivity.
  - rewrite <- Hs in Hf1, Hi1.
    destruct (target_after_method _ _ _ _ _ _ _ _ _ Hi1) as [o2 Ho2];
      [rewrite Ho1; eauto |].
    exists o2. split; [exact Ho2 |]. split; [| split].
    + apply (first_access_returns code g n s1 name' p1 o1 f1 v s2 o2);
        try assumption; rewrite Hs; assumption.
    + apply position_end_load.
    + reflexivity.
Qed.

Lemma retry_after_failure_witness :
  exists s1 s2,
    wrapper_get flaky_code None 1 "pixels" reentrant_world
    = Thrown (UserError (VStr "bad data")) s1 /\
    wrapper_get flaky_code None 1 "data" s1 = Ok (VNum 1) s2 /\
    position reentrant_world = Some 500 /\
    position s2 = Some 130.
Proof.
  assert (no_captured_wrapper flaky_code) as Hc.
  { intros f r args Hr. unfold flaky_code, demo_code.
    repeat match goal with
           | |- context [String.eqb ?a ?b] => destruct (String.eqb a b)
           end;
      repeat (constructor; auto).
    intros t. destruct t as [| |[|]| | |]; repeat (constructor; auto). }
  destruct (retry_after_failure flaky_code None 1 reentrant_world
              "pixels" "data" 500 image "parseAgain"
              (UserError (VStr "bad data"))
              (with_objs
                 {[ the_image := obj_set image "tried" (VBool true) ]}
                 (with_files {[ the_file := 130 ]}
                             (begin_load reentrant_world)))
              130 (obj_set image "tried" (VBool true)) "parseAgain" VUndef
              (with_objs
                 {[ the_image :=
                      obj_set (obj_set image "tried" (VBool true))
                              "data" (VNum 1) ]}
                 (begin_load
                    (with_objs
                       {[ the_image := obj_set image "tried" (VBool true) ]}
                       (with_files {[ the_file := 130 ]}
                                   (begin_load reentrant_world)))))
              Hc)
    as (Hfirst & o2 & Ho2 & Hsecond & Hpos & _);
    try (vm_compute; reflexivity).
  do 2 eexists. split; [exact Hfirst |]. split; [| split].
  - rewrite Hsecond. vm_compute in Ho2. injection Ho2 as <-.
    vm_compute. reflexivity.
  - reflexivity.
  - exact Hpos.
Defined.

(** X15.  Calling through the wrapper a member that is no function, on an
    instance not yet loaded and under a name that is not exempt, loads
    first and fails afterwards: the caller gets a TypeError, and the load
    stands, with the flag set and the stream put back. *)
Theorem call_of_missing_member_still_loads
        code g n s name args p o f v0 s2 o' :
  loaded (self s) = false ->
  includes (passthru (self s)) name = false ->
  position s = Some p ->
  target s = Some o ->
  obj_get o (key_of (loadMethod (self s))) = VFun f ->
  invoke code g n f (ThisObj (obj (self s))) (loadArgs (self s))
         (begin_load s) = Ok v0 s2 ->
  target s2 = Some o' ->
  (forall h, obj_get o' name <> VFun h) ->
  run code g n (CallMember ThisWrapper name args Return) s
  = Thrown TypeError (end_load p s2) /\
  loaded (self (end_load p s2)) = true /\
  position (end_load p s2) = Some p.
Proof.
  intros Hl Hx Hp Ho Hf Hi Ho' Hn. split; [| split].
  - rewrite member_call_goes_through_get. unfold bind.
    rewrite (first_access_returns code g n s name p o f v0 s2 o')
      by assumption.
    destruct (obj_get o' name) eqn:Hv; try reflexivity.
    exfalso. eapply Hn. reflexivity.
  - reflexivity.
  - apply position_end_load.
Qed.

Lemma call_of_missing_member_still_loads_witness :
  exists s',
    run demo_code None 1 (CallMember ThisWrapper "nothing" [] Return)
        demo_world = Thrown TypeError s' /\
    loaded (self s') = true /\ position s' = Some 500.
Proof.
  eexists.
  apply (call_of_missing_member_still_loads demo_code None 1 demo_world
           "nothing" [] 500 image "parseImage" VUndef
           (with_objs {[ the_image := obj_set image "data" (VNum 100) ]}
              (with_files {[ the_file := 400 ]} (begin_load demo_world)))
           (obj_set image "data" (VNum 100)));
    try (vm_compute; reflexivity).
  intros h. vm_compute. discriminate.
Defined.
